(** * The Solr document manager of mongo-connector

    A shallow embedding of [mongo_connector/doc_managers/solr_doc_manager.py]
    (class [DocManager]) and the properties of its write path: the schema
    filter [clean_doc], the mapping [transform_doc], the bulk buffer
    ([upsert], [commit], [sendDocsBulk]) and the recovery query
    [get_last_doc].

    Python dictionaries are finite maps with string keys ([gmap string _]):
    dictionary equality in Python ignores insertion order, and so does [=]
    on [gmap].  Exceptions are values of the error monad [outcome]; methods
    that talk to Solr or write to the log run in the state monad [M], whose
    state keeps the manager's attributes, the backend and the trace of
    requests and log records. *)

From Stdlib Require Import ZArith Ascii String Lia.
From stdpp Require Import base option list strings pretty gmap.


Local Open Scope Z_scope.

(** ** Exceptions and the error monad *)

(** An exception is known by its class and the classes it inherits from;
    [exn_arg] keeps the key of a [KeyError] (other exceptions leave it
    empty). *)
Record exn := Exn {
  exn_class : string;
  exn_bases : list string;
  exn_arg : string
}.

(** [isinstance e c], the test an [except c:] clause makes. *)
Definition isinstance (e : exn) (c : string) : bool :=
  bool_decide (c ∈ exn_class e :: exn_bases e).

Definition KeyError (key : string) : exn :=
  Exn "KeyError" ["LookupError"; "Exception"; "BaseException"] key.
Definition IndexError : exn :=
  Exn "IndexError" ["LookupError"; "Exception"; "BaseException"] "".
Definition TypeError : exn :=
  Exn "TypeError" ["Exception"; "BaseException"] "".
Definition AttributeError : exn :=
  Exn "AttributeError" ["Exception"; "BaseException"] "".
Definition ValueError : exn :=
  Exn "ValueError" ["Exception"; "BaseException"] "".
Definition SolrError : exn :=
  Exn "SolrError" ["Exception"; "BaseException"] "".
Definition ConnectionError : exn :=
  Exn "ConnectionError" ["OSError"; "Exception"; "BaseException"] "".

Inductive outcome (A : Type) : Type :=
  | Ok (a : A)
  | Raise (e : exn).
Arguments Ok {A} a.
Arguments Raise {A} e.

Global Instance outcome_ret : MRet outcome := @Ok.
Global Instance outcome_bind : MBind outcome := λ A B f m,
  match m with Ok a => f a | Raise e => Raise e end.
Global Instance outcome_fmap : FMap outcome := λ A B f m,
  match m with Ok a => Ok (f a) | Raise e => Raise e end.

(** [for x in l: acc = body x acc], stopping at the first exception. *)
Fixpoint for_in {A B : Type} (l : list A) (body : A → B → outcome B) (acc : B)
    : outcome B :=
  match l with
  | [] => Ok acc
  | x :: l' => acc' ← body x acc; for_in l' body acc'
  end.

(** ** Python values *)

#[warnings="-register-all"]
Inductive pyval : Type :=
  | PNone
  | PBool (b : bool)
  | PInt (z : Z)
  | PStr (s : string)
  | PList (l : list pyval)
  | PDict (d : gmap string pyval).

Abbreviation dict := (gmap string pyval).

(** [d[key]] on a dictionary. *)
Definition getitem (d : dict) (key : string) : outcome pyval :=
  match d !! key with
  | Some v => Ok v
  | None => Raise (KeyError key)
  end.

(** [v[key]] with a string key on any value: only a dictionary can be
    subscripted that way. *)
Definition subscript (v : pyval) (key : string) : outcome pyval :=
  match v with
  | PDict d => getitem d key
  | _ => Raise TypeError
  end.

(** [v.keys()], [v.items()], [v.get]: attributes of dictionaries only. *)
Definition as_dict (v : pyval) : outcome dict :=
  match v with
  | PDict d => Ok d
  | _ => Raise AttributeError
  end.

(** [key in v.keys()] *)
Definition has_key (v : pyval) (key : string) : outcome bool :=
  d ← as_dict v; mret (bool_decide (is_Some (d !! key))).

(** [v.get(key, {})] *)
Definition get_default (v : pyval) (key : string) : outcome pyval :=
  d ← as_dict v; mret (default (PDict ∅) (d !! key)).

(** ** The part of Python's [re] that [clean_doc] uses

    [clean_doc] pastes a schema name into a regular expression and asks
    whether the compiled expression matches a key.  The code only needs an
    engine with these two operations, so they form an interface; [py_re]
    below implements it for the expressions built from [\w], [\b],
    literal characters, [.] and [*]. *)
Class ReModule := {
  re_pattern : Type;
  (** [re.compile(text)] *)
  re_compile : string → outcome re_pattern;
  (** [pattern.match(s)] is not [None] *)
  re_match : re_pattern → string → bool
}.

Module re.

Definition error (msg : string) : exn :=
  Exn "re.error" ["Exception"; "BaseException"] msg.

(** Raised by this model, not by Python, on syntax it gives no meaning
    to (groups, classes, anchors, [+], [?], other escapes). *)
Definition unsupported : exn := Exn "unsupported" [] "".

Inductive atom :=
  | Lit (c : ascii)
  | Word
  | Dot.

Inductive item :=
  | Boundary
  | One (a : atom)
  | Star (a : atom).

Definition regex := list item.

Definition in_range (lo hi c : ascii) : bool :=
  (nat_of_ascii lo <=? nat_of_ascii c)%nat
  && (nat_of_ascii c <=? nat_of_ascii hi)%nat.

(** [\w] on ASCII text: letters, digits and the underscore. *)
Definition is_word (c : ascii) : bool :=
  in_range "a" "z" c || in_range "A" "Z" c || in_range "0" "9" c
  || Ascii.eqb c "_".

Definition is_special (c : ascii) : bool :=
  bool_decide (c ∈ list_ascii_of_string ".^$*+?{}[]\|()").

(** The parser: an atom takes the [*] that follows it; a [*] with no atom
    before it is the error "nothing to repeat" (after a starred atom
    Python words it "multiple repeat"). *)
Fixpoint parse (s : list ascii) : outcome regex :=
  match s with
  | [] => Ok []
  | c :: s' =>
    if Ascii.eqb c "*" then Raise (error "nothing to repeat")
    else if Ascii.eqb c "\" then
      match s' with
      | [] => Raise (error "bad escape (end of pattern)")
      | e :: s'' =>
        if Ascii.eqb e "b" then cons Boundary <$> parse s''
        else if Ascii.eqb e "w" then
          match s'' with
          | q :: s''' =>
            if Ascii.eqb q "*" then cons (Star Word) <$> parse s'''
            else cons (One Word) <$> parse s''
          | [] => Ok [One Word]
          end
        else Raise unsupported
      end
    else if is_special c && negb (Ascii.eqb c ".") then Raise unsupported
    else
      let a := if Ascii.eqb c "." then Dot else Lit c in
      match s' with
      | q :: s'' =>
        if Ascii.eqb q "*" then cons (Star a) <$> parse s''
        else cons (One a) <$> parse s'
      | [] => Ok [One a]
      end
  end.

Definition atom_ok (a : atom) (c : ascii) : bool :=
  match a with
  | Lit x => Ascii.eqb x c
  | Word => is_word c
  | Dot => negb (Ascii.eqb c "010")
  end.

Definition word_opt (c : option ascii) : bool :=
  match c with
  | Some x => is_word x
  | None => false
  end.

(** [exec r prev s]: does [r] match a prefix of [s], where [prev] is the
    character just before [s]?  A starred atom first tries to take one
    more character and backtracks to the rest of the expression. *)
Fixpoint exec (r : regex) (prev : option ascii) (s : list ascii) : bool :=
  match r with
  | [] => true
  | Boundary :: r' =>
    xorb (word_opt prev) (word_opt (head s)) && exec r' prev s
  | One a :: r' =>
    match s with
    | c :: s' => atom_ok a c && exec r' (Some c) s'
    | [] => false
    end
  | Star a :: r' =>
    (fix star (prev : option ascii) (s : list ascii) : bool :=
       match s with
       | c :: s' => (atom_ok a c && star (Some c) s') || exec r' prev s
       | [] => exec r' prev s
       end) prev s
  end.

Definition compile (text : string) : outcome regex :=
  parse (list_ascii_of_string text).

(** The expression made of the characters of [s], each taken literally. *)
Definition lits (s : list ascii) : regex := (λ c, One (Lit c)) <$> s.

(** The character before the text that follows [s], when [prev] was the
    character before [s]. *)
Definition last_or (prev : option ascii) (s : list ascii) : option ascii :=
  from_option Some prev (last s).

(** [match] anchors at the start of the string only. *)
Definition match_ (r : regex) (s : string) : bool :=
  exec r None (list_ascii_of_string s).

End re.

Definition py_re : ReModule :=
  {| re_pattern := re.regex; re_compile := re.compile; re_match := re.match_ |}.

(** ** The manager's attributes *)

(** [field_list] holds one of two things: the empty list [__init__] gives
    it, or the one-element tuple [build_fields] assigns (its line ends in
    a comma), whose only element is the list of declared names. *)
Inductive field_list_value :=
  | FieldsEmptyList
  | FieldsTuple (names : list string).

(** [not self.field_list]: an empty list is falsy, a one-element tuple is
    truthy whatever it holds. *)
Definition falsy (fl : field_list_value) : bool :=
  match fl with
  | FieldsEmptyList => true
  | FieldsTuple _ => false
  end.

Record DocManager := {
  unique_key : string;
  auto_commit : bool;
  field_list : field_list_value;
  dynamic_field_list : list string;
  commit_bulk_max : Z;
  commit_bulk_num : Z;
  bulk_docs_send : Z;
  bulk_docs_counter : Z;
  docs : list dict
}.

Definition ADMIN_URL : string := "admin/luke?show=Schema&wt=json".

(** ** [_parse_fields] *)

(** The keys of [result.get('schema', {}).get(field_name, {})], each once. *)
Definition _parse_fields (result : pyval) (field_name : string)
    : outcome (list string) :=
  schema ← get_default result "schema";
  fields ← get_default schema field_name;
  items ← as_dict fields;
  for_in (A := string * pyval) (map_to_list items)
    (λ '(key, _) (field_list : list string),
       Ok (if bool_decide (key ∈ field_list) then field_list
           else field_list ++ [key]))
    [].

(** ** [clean_doc] *)

(** Strings made of word characters, and strings that start with one. *)
Fixpoint all_word (s : string) : bool :=
  match s with
  | EmptyString => true
  | String c s' => re.is_word c && all_word s'
  end.

Definition starts_with_word (s : string) : bool :=
  match s with
  | EmptyString => false
  | String c _ => re.is_word c
  end.

(** [s[:-1]] *)
Fixpoint chop (s : string) : string :=
  match s with
  | EmptyString => EmptyString
  | String c EmptyString => EmptyString
  | String c s' => String c (chop s')
  end.

(** Did the test of a key end with [True]? *)
Definition is_kept (r : outcome bool) : bool :=
  match r with
  | Ok true => true
  | _ => false
  end.

Section clean.
Context `{ReModule}.

(** One round of the loop over [dynamic_field_list]: build the
    expression for [field] and try it on [key]. *)
Definition dynamic_match (field key : string) : outcome bool :=
  match field with
  | EmptyString => Raise IndexError
  | String c _ =>
    regex ← (if Ascii.eqb c "*"
             then re_compile ("\w" +:+ field +:+ "\b")
             else re_compile ("\b" +:+ field +:+ "\w"));
    mret (re_match regex key)
  end.

Definition clean_doc (self : DocManager) (doc : dict) : outcome dict :=
  if falsy (field_list self) then Ok doc
  else
    let field_list_0 :=
      match field_list self with
      | FieldsTuple names => names
      | FieldsEmptyList => []
      end in
    for_in (A := string * pyval) (map_to_list doc)
      (λ '(key, value) (fixed_doc : dict),
         if bool_decide (key ∈ field_list_0)
         then Ok (<[key := value]> fixed_doc)
         else
           for_in (dynamic_field_list self)
             (λ field (fixed_doc : dict),
                m ← dynamic_match field key;
                mret (if m : bool then <[key := value]> fixed_doc
                      else fixed_doc))
             fixed_doc)
      (∅ : dict).

(** What the two loops decide for one key: whether some pattern of
    [fields] matches it ([found] says whether one already has), and
    whether the key stays. *)
Definition any_dynamic (fields : list string) (key : string) (found : bool)
    : outcome bool :=
  for_in fields
    (λ field found, m ← dynamic_match field key; mret (m || found)) found.

Definition key_kept (names fields : list string) (key : string)
    : outcome bool :=
  if bool_decide (key ∈ names) then Ok true
  else any_dynamic fields key false.
End clean.

(** ** [transform_doc] *)

(** [doc['value']['data']] *)
Definition value_data (doc : dict) : outcome pyval :=
  value ← getitem doc "value"; subscript value "data".

(** [doc['value']['data']['address']] *)
Definition value_data_address (doc : dict) : outcome pyval :=
  data ← value_data doc; subscript data "address".

(** [if src in container.keys(): new_doc[dst] = container[src]], where
    [container] is evaluated once for the test and once more for the
    assignment. *)
Definition copy_if_present (container : outcome pyval) (src dst : string)
    (new_doc : dict) : outcome dict :=
  c ← container;
  present ← has_key c src;
  if present : bool then
    c ← container;
    v ← subscript c src;
    mret (<[dst := v]> new_doc)
  else mret new_doc.

Definition transform_doc (doc : dict) : outcome dict :=
  let new_doc : dict := ∅ in
  _id ← getitem doc "_id";
  let new_doc := <["_id" := _id]> new_doc in
  _id ← getitem doc "_id";
  let new_doc := <["id" := _id]> new_doc in
  data ← value_data doc;
  has_address ← has_key data "address";
  new_doc ←
    (if has_address : bool then
       new_doc ← copy_if_present (value_data_address doc)
                   "street" "cs_address_street" new_doc;
       new_doc ← copy_if_present (value_data_address doc)
                   "city" "cs_address_city" new_doc;
       copy_if_present (value_data_address doc)
         "postalCode" "cs_address_postal_code" new_doc
     else mret new_doc);
  new_doc ← copy_if_present (value_data doc) "description" "cs_description" new_doc;
  new_doc ← copy_if_present (value_data doc) "email" "cs_email" new_doc;
  new_doc ← copy_if_present (value_data doc) "fax" "fax" new_doc;
  new_doc ← copy_if_present (value_data doc) "name" "cs_name" new_doc;
  new_doc ← copy_if_present (value_data doc) "phone" "phone" new_doc;
  mret new_doc.

(** The same mapping, written on the dictionaries once [doc['value']['data']]
    and the address are known to be there. *)
Definition put (dst : string) (v : option pyval) (new_doc : dict) : dict :=
  match v with
  | Some v => <[dst := v]> new_doc
  | None => new_doc
  end.

Definition ids (_id : pyval) : dict := <["id" := _id]> (<["_id" := _id]> ∅).

Definition address_leaves (address : dict) (new_doc : dict) : dict :=
  put "cs_address_postal_code" (address !! "postalCode")
    (put "cs_address_city" (address !! "city")
       (put "cs_address_street" (address !! "street") new_doc)).

Definition leaves (data : dict) (new_doc : dict) : dict :=
  put "phone" (data !! "phone")
    (put "cs_name" (data !! "name")
       (put "fax" (data !! "fax")
          (put "cs_email" (data !! "email")
             (put "cs_description" (data !! "description") new_doc)))).

(** ** The Solr client, the log and the state monad *)

(** What [solr.search] returns: [len(results)] is [len(results.docs)]. *)
Record Results := {
  results_docs : list dict;
  results_hits : Z
}.

(** The methods of [pysolr.Solr] the manager calls.  [S] is the state of
    the server behind the connection; every request may change it and
    either returns or raises.  [solr_send_request] stands for
    [_send_request] followed by [decoder.decode]: the reply is given by the
    value its JSON text decodes to, a reply that is no JSON by the
    [ValueError] of the decoder.  [solr_delete_id] receives the value whose
    [str] is the identifier. *)
Class SolrClient (S : Type) := {
  solr_send_request : string → string → S → outcome pyval * S;
  solr_add : list dict → bool → S → outcome () * S;
  solr_delete_id : pyval → bool → S → outcome () * S;
  solr_delete_q : string → S → outcome () * S;
  solr_search : string → option string → Z → S → outcome Results * S;
  solr_commit : S → outcome () * S
}.

Inductive log_message :=
  (** ["Bulk add: (%s) "] *)
  | BulkAdd (n : Z)
  (** ["Could not insert %r into Solr"] *)
  | CouldNotInsert (docs : list dict)
  (** [sys.exc_info()] *)
  | ExcInfo (e : exn).

(** What the manager does to the outside, in the order it does it. *)
Inductive event :=
  | SolrSendRequest (method path : string)
  | SolrAdd (docs : list dict) (commit : bool)
  | SolrDeleteId (id : pyval) (commit : bool)
  | SolrDeleteQuery (q : string)
  | SolrSearch (q : string) (sort : option string) (rows : Z)
  | SolrCommit
  | LoggingInfo (m : log_message)
  | LoggingError (m : log_message)
  | TimerStart (interval : Z).

Definition set_auto_commit (v : bool) (self : DocManager) : DocManager :=
  {| unique_key := unique_key self; auto_commit := v;
     field_list := field_list self;
     dynamic_field_list := dynamic_field_list self;
     commit_bulk_max := commit_bulk_max self;
     commit_bulk_num := commit_bulk_num self;
     bulk_docs_send := bulk_docs_send self;
     bulk_docs_counter := bulk_docs_counter self; docs := docs self |}.

Definition set_field_list (v : field_list_value) (self : DocManager)
    : DocManager :=
  {| unique_key := unique_key self; auto_commit := auto_commit self;
     field_list := v;
     dynamic_field_list := dynamic_field_list self;
     commit_bulk_max := commit_bulk_max self;
     commit_bulk_num := commit_bulk_num self;
     bulk_docs_send := bulk_docs_send self;
     bulk_docs_counter := bulk_docs_counter self; docs := docs self |}.

Definition set_dynamic_field_list (v : list string) (self : DocManager)
    : DocManager :=
  {| unique_key := unique_key self; auto_commit := auto_commit self;
     field_list := field_list self;
     dynamic_field_list := v;
     commit_bulk_max := commit_bulk_max self;
     commit_bulk_num := commit_bulk_num self;
     bulk_docs_send := bulk_docs_send self;
     bulk_docs_counter := bulk_docs_counter self; docs := docs self |}.

Definition set_commit_bulk_max (v : Z) (self : DocManager) : DocManager :=
  {| unique_key := unique_key self; auto_commit := auto_commit self;
     field_list := field_list self;
     dynamic_field_list := dynamic_field_list self;
     commit_bulk_max := v;
     commit_bulk_num := commit_bulk_num self;
     bulk_docs_send := bulk_docs_send self;
     bulk_docs_counter := bulk_docs_counter self; docs := docs self |}.

Definition set_commit_bulk_num (v : Z) (self : DocManager) : DocManager :=
  {| unique_key := unique_key self; auto_commit := auto_commit self;
     field_list := field_list self;
     dynamic_field_list := dynamic_field_list self;
     commit_bulk_max := commit_bulk_max self;
     commit_bulk_num := v;
     bulk_docs_send := bulk_docs_send self;
     bulk_docs_counter := bulk_docs_counter self; docs := docs self |}.

Definition set_docs (v : list dict) (self : DocManager) : DocManager :=
  {| unique_key := unique_key self; auto_commit := auto_commit self;
     field_list := field_list self;
     dynamic_field_list := dynamic_field_list self;
     commit_bulk_max := commit_bulk_max self;
     commit_bulk_num := commit_bulk_num self;
     bulk_docs_send := bulk_docs_send self;
     bulk_docs_counter := bulk_docs_counter self; docs := v |}.

Section manager.
Context `{ReModule} {S : Type} `{SolrClient S}.

(** The manager, the server it is connected to and what has happened. *)
Record world := World {
  self : DocManager;
  solr : S;
  trace : list event
}.

(** A method body: it ends by returning or raising, and an exception
    does not undo the assignments made before it. *)
Definition M (A : Type) : Type := world → outcome A * world.

Global Instance M_ret : MRet M := λ A a w, (Ok a, w).
Global Instance M_bind : MBind M := λ A B f m w,
  match m w with
  | (Ok a, w') => f a w'
  | (Raise e, w') => (Raise e, w')
  end.

Global Instance M_fmap : FMap M := λ A B f m w,
  match m w with
  | (Ok a, w') => (Ok (f a), w')
  | (Raise e, w') => (Raise e, w')
  end.

Definition raise {A} (e : exn) : M A := λ w, (Raise e, w).

Definition lift {A} (r : outcome A) : M A := λ w, (r, w).

Definition get_self : M DocManager := λ w, (Ok (self w), w).

(** [self.attr = v] *)
Definition assign (f : DocManager → DocManager) : M () := λ w,
  (Ok (), {| self := f (self w); solr := solr w; trace := trace w |}).

Definition emit (ev : event) : M () := λ w,
  (Ok (), {| self := self w; solr := solr w; trace := trace w ++ [ev] |}).

(** A call of [self.solr], recorded before its answer is known. *)
Definition request {A} (ev : event) (f : S → outcome A * S) : M A := λ w,
  let '(r, s') := f (solr w) in
  (r, {| self := self w; solr := s'; trace := trace w ++ [ev] |}).

(** [try: body  except: handler e] *)
Definition try_except {A} (body : M A) (handler : exn → M A) : M A := λ w,
  match body w with
  | (Ok a, w') => (Ok a, w')
  | (Raise e, w') => handler e w'
  end.

Definition build_fields : M () :=
  result ← request (SolrSendRequest "get" ADMIN_URL)
             (solr_send_request "get" ADMIN_URL);
  fields ← lift (_parse_fields result "fields");
  assign (set_field_list (FieldsTuple fields));;
  dynamic_fields ← lift (_parse_fields result "dynamicFields");
  assign (set_dynamic_field_list dynamic_fields).

Definition stop : M () := assign (set_auto_commit false).

Definition sendDocsBulk : M () :=
  self ← get_self;
  if bool_decide (docs self ≠ []) then
    try_except
      (request (SolrAdd (docs self) true) (solr_add (docs self) true);;
       assign (set_docs []);;
       self ← get_self;
       emit (LoggingInfo (BulkAdd (commit_bulk_num self)));;
       assign (set_commit_bulk_num 0))
      (λ e,
         if isinstance e "SolrError" then
           self ← get_self;
           emit (LoggingError (CouldNotInsert (docs self)))
         else
           emit (LoggingError (ExcInfo e));;
           raise e)
  else mret ().

Definition commit : M () :=
  self ← get_self;
  if bool_decide (docs self ≠ []) then sendDocsBulk else mret ().

Definition upsert (doc : dict) : M () :=
  self ← get_self;
  doc ← lift (transform_doc doc ≫= clean_doc self);
  assign (λ self, set_docs (docs self ++ [doc]) self);;
  assign (λ self, set_commit_bulk_num (commit_bulk_num self + 1) self);;
  self ← get_self;
  if bool_decide (commit_bulk_num self >= commit_bulk_max self)
  then commit
  else mret ().

(** The manager once [upsert] has put [doc] in the buffer. *)
Definition buffered (doc : dict) (w : world) : world :=
  {| self := set_commit_bulk_num (commit_bulk_num (self w) + 1)
               (set_docs (docs (self w) ++ [doc]) (self w));
     solr := solr w; trace := trace w |}.

Definition remove (doc : dict) : M () :=
  self ← get_self;
  id ← lift (getitem doc (unique_key self));
  request (SolrDeleteId id true) (solr_delete_id id true).

Definition _remove : M () :=
  request (SolrDeleteQuery "*:*") (solr_delete_q "*:*").

(** [start_ts] and [end_ts] are the integers the oplog gives. *)
Definition search (start_ts end_ts : Z) : M Results :=
  let query := "_ts: [" +:+ pretty start_ts +:+ " TO " +:+ pretty end_ts
               +:+ "]" in
  request (SolrSearch query None 100000000)
    (solr_search query None 100000000).

Definition _search (query : string) : M Results :=
  request (SolrSearch query None 200) (solr_search query None 200).

Definition run_auto_commit : M () :=
  request SolrCommit solr_commit;;
  self ← get_self;
  if auto_commit self then emit (TimerStart 1) else mret ().

Definition get_last_doc : M (option dict) :=
  result ← try_except
    (Some <$> request (SolrSearch "*:*" (Some "_ts desc") 1)
                (solr_search "*:*" (Some "_ts desc") 1))
    (λ e, if isinstance e "ValueError" then mret None else raise e);
  match result with
  | None => mret None
  | Some result =>
    match results_docs result with
    | [] => mret None
    | doc :: _ => mret (Some doc)
    end
  end.

Definition __init__ (connection : S) (auto_commit : bool)
    (unique_key : string) : outcome () * world :=
  (build_fields;;
   if auto_commit then run_auto_commit else mret ())
    {| self := {| unique_key := unique_key; auto_commit := auto_commit;
                  field_list := FieldsEmptyList; dynamic_field_list := [];
                  commit_bulk_max := 1000; commit_bulk_num := 0;
                  bulk_docs_send := 10; bulk_docs_counter := 0;
                  docs := [] |};
       solr := connection; trace := [] |}.

(** *** Callers

    A caller invokes public methods one after the other on the same
    manager; an exception ends the call that raised it and leaves the
    attributes as they were at that moment. *)
Inductive call :=
  | call_upsert (doc : dict)
  | call_commit
  | call_sendDocsBulk
  | call_remove (doc : dict)
  | call__remove
  | call_search (start_ts end_ts : Z)
  | call__search (query : string)
  | call_get_last_doc
  | call_run_auto_commit
  | call_build_fields
  | call_stop.

Definition run_call (c : call) : M () :=
  match c with
  | call_upsert doc => upsert doc
  | call_commit => commit
  | call_sendDocsBulk => sendDocsBulk
  | call_remove doc => remove doc
  | call__remove => _remove
  | call_search start_ts end_ts => search start_ts end_ts;; mret ()
  | call__search query => _search query;; mret ()
  | call_get_last_doc => get_last_doc;; mret ()
  | call_run_auto_commit => run_auto_commit
  | call_build_fields => build_fields
  | call_stop => stop
  end.

Fixpoint run_calls (cs : list call) (w : world) : world :=
  match cs with
  | [] => w
  | c :: cs' => run_calls cs' (run_call c w).2
  end.

(** The buffer and its counter agree. *)
Definition counter_matches_buffer (self : DocManager) : Prop :=
  commit_bulk_num self = Z.of_nat (length (docs self)).
End manager.

Global Arguments world : clear implicits.

(** ** A scripted server

    A server that answers every request of one kind the same way; it is
    what the examples below run against. *)
Record Scripted := {
  schema_reply : outcome pyval;
  add_reply : outcome ();
  search_reply : outcome Results
}.

Global Instance scripted_client : SolrClient Scripted := {|
  solr_send_request _ _ s := (schema_reply s, s);
  solr_add _ _ s := (add_reply s, s);
  solr_delete_id _ _ s := (Ok (), s);
  solr_delete_q _ s := (Ok (), s);
  solr_search _ _ _ s := (search_reply s, s);
  solr_commit s := (Ok (), s)
|}.

(** The rows of the mapping in [transform_doc]: key under
    [value.data] (resp. [value.data.address]) and Solr field. *)
Definition data_fields : list (string * string) :=
  [("description", "cs_description"); ("email", "cs_email"); ("fax", "fax");
   ("name", "cs_name"); ("phone", "phone")].

Definition address_fields : list (string * string) :=
  [("street", "cs_address_street"); ("city", "cs_address_city");
   ("postalCode", "cs_address_postal_code")].

(** ** [transform_doc_old] *)

Definition is_alnum (c : ascii) : bool :=
  re.in_range "0" "9" c || re.in_range "a" "z" c || re.in_range "A" "Z" c.

(** [re.sub('[^0-9a-zA-Z]+', '_', s)]: every maximal run of characters
    outside the class becomes one underscore.  [in_run] says that the
    character before [s] was in such a run, whose underscore is written
    already. *)
Fixpoint sub_non_alnum (in_run : bool) (s : string) : string :=
  match s with
  | EmptyString => EmptyString
  | String c s' =>
    if is_alnum c then String c (sub_non_alnum false s')
    else if in_run then sub_non_alnum true s'
    else String "_" (sub_non_alnum true s')
  end.

(** [str.lower] on ASCII text. *)
Definition lower_char (c : ascii) : ascii :=
  if re.in_range "A" "Z" c then ascii_of_nat (nat_of_ascii c + 32) else c.

Fixpoint lower (s : string) : string :=
  match s with
  | EmptyString => EmptyString
  | String c s' => String (lower_char c) (lower s')
  end.

(** [v + s] where [s] is a string: [v] has to be one too. *)
Definition add_str (v : pyval) (s : string) : outcome string :=
  match v with
  | PStr a => Ok (a +:+ s)
  | _ => Raise TypeError
  end.

(** [v[0]] *)
Definition first_item (v : pyval) : outcome pyval :=
  match v with
  | PList (x :: _) => Ok x
  | PList [] => Raise IndexError
  | PStr (String c _) => Ok (PStr (String c EmptyString))
  | PStr EmptyString => Raise IndexError
  | PDict _ => Raise (KeyError "0")
  | _ => Raise TypeError
  end.

Fixpoint characters (s : string) : list pyval :=
  match s with
  | EmptyString => []
  | String c s' => PStr (String c EmptyString) :: characters s'
  end.

(** What [for x in v] goes through: the items of a list, the characters of
    a string, the keys of a dictionary. *)
Definition iterate (v : pyval) : outcome (list pyval) :=
  match v with
  | PList l => Ok l
  | PStr s => Ok (characters s)
  | PDict d => Ok (PStr <$> (map_to_list d).*1)
  | _ => Raise TypeError
  end.

(** The field name made from a language code. *)
Definition target_term_name (lang_code : string) : string :=
  lower (sub_non_alnum false (lang_code +:+ "_target_term")).

Definition transform_doc_old (doc : dict) : outcome dict :=
  let new_doc : dict := ∅ in
  v ← getitem doc "_id";
  let new_doc := <["_id" := v]> new_doc in
  v ← getitem doc "GlossaryId";
  let new_doc := <["GlossaryId" := v]> new_doc in
  v ← getitem doc "SourceTerm";
  let new_doc := <["SourceTerm" := v]> new_doc in
  new_doc ← copy_if_present (Ok (PDict doc)) "Notes" "Notes" new_doc;
  new_doc ← copy_if_present (Ok (PDict doc)) "Definition" "Definition" new_doc;
  new_doc ← copy_if_present (Ok (PDict doc))
              "IsProductName" "IsProductName" new_doc;
  new_doc ← copy_if_present (Ok (PDict doc))
              "DoNotTranslate" "DoNotTranslate" new_doc;
  target_terms ← getitem doc "TargetTerms";
  translations ← iterate target_terms;
  for_in translations
    (λ translation (new_doc : dict),
       lang_code ← subscript translation "LangCode";
       name ← add_str lang_code "_target_term";
       let name := lower (sub_non_alnum false name) in
       terms ← subscript translation "Terms";
       term ← first_item terms;
       mret (<[name := term]> new_doc))
    new_doc.

(** The fields [transform_doc_old] copies under their own name: the three
    it needs and the four it takes when they are there. *)
Definition glossary_fields : list string :=
  ["_id"; "GlossaryId"; "SourceTerm"; "Notes"; "Definition"; "IsProductName";
   "DoNotTranslate"].

(** The document of [transform_doc_old] before the loop over the
    translations, and the body of that loop. *)
Definition glossary_part (doc : dict) (_id glossary_id source_term : pyval)
    : dict :=
  put "DoNotTranslate" (doc !! "DoNotTranslate")
    (put "IsProductName" (doc !! "IsProductName")
       (put "Definition" (doc !! "Definition")
          (put "Notes" (doc !! "Notes")
             (<["SourceTerm" := source_term]>
                (<["GlossaryId" := glossary_id]> (<["_id" := _id]> ∅)))))).

Definition add_translation (translation : pyval) (new_doc : dict)
    : outcome dict :=
  lang_code ← subscript translation "LangCode";
  name ← add_str lang_code "_target_term";
  let name := lower (sub_non_alnum false name) in
  terms ← subscript translation "Terms";
  term ← first_item terms;
  mret (<[name := term]> new_doc).

(** ** What the server was sent *)

(** The batches of the [solr.add] requests of a trace, in order, and the
    documents in them. *)
Fixpoint batches (tr : list event) : list (list dict) :=
  match tr with
  | [] => []
  | SolrAdd ds _ :: tr' => ds :: batches tr'
  | _ :: tr' => batches tr'
  end.

Definition sent (tr : list event) : list dict := concat (batches tr).

(** ** Documents and servers used in the examples *)

Definition acme : dict :=
  {[ "_id" := PStr "x1";
     "value" := PDict {[ "data" := PDict {[ "name" := PStr "Acme";
                                            "phone" := PStr "555" ]} ]} ]}.

Definition acme_flat : dict :=
  {[ "_id" := PStr "x1"; "id" := PStr "x1"; "cs_name" := PStr "Acme";
     "phone" := PStr "555" ]}.

(** A server whose schema declares nothing and that accepts every batch. *)
Definition bare_server : Scripted :=
  {| schema_reply := Ok (PDict ∅); add_reply := Ok ();
     search_reply := Ok {| results_docs := []; results_hits := 0 |} |}.

(** A server that rejects every batch. *)
Definition rejecting_server : Scripted :=
  {| schema_reply := Ok (PDict ∅); add_reply := Raise SolrError;
     search_reply := Raise ValueError |}.

(** A server that cannot be reached. *)
Definition unreachable_server : Scripted :=
  {| schema_reply := Raise ConnectionError; add_reply := Raise ConnectionError;
     search_reply := Raise ConnectionError |}.

(** What the client raises when the server cannot be reached: pysolr
    turns the connection errors and timeouts of its HTTP library into a
    [SolrError], which carries a message. *)
Definition connection_refused : exn :=
  Exn "SolrError" ["Exception"; "BaseException"] "Failed to connect to server".

(** An exception that is no error of the backend: the interpreter runs
    out of memory while the client builds the request. *)
Definition MemoryError : exn :=
  Exn "MemoryError" ["Exception"; "BaseException"] "".

(** A server that cannot be reached, as the client reports it. *)
Definition offline_server : Scripted :=
  {| schema_reply := Raise connection_refused;
     add_reply := Raise connection_refused;
     search_reply := Raise connection_refused |}.

(** A client that runs out of memory on every batch. *)
Definition exhausted_client : Scripted :=
  {| schema_reply := Ok (PDict ∅); add_reply := Raise MemoryError;
     search_reply := Ok {| results_docs := []; results_hits := 0 |} |}.

(** A manager that knows no schema (the state before [build_fields]),
    with [threshold] as [commit_bulk_max] and [buffer] waiting. *)
Definition manager_with (threshold : Z) (buffer : list dict) : DocManager :=
  {| unique_key := "_id"; auto_commit := false;
     field_list := FieldsEmptyList; dynamic_field_list := [];
     commit_bulk_max := threshold;
     commit_bulk_num := Z.of_nat (length buffer);
     bulk_docs_send := 10; bulk_docs_counter := 0; docs := buffer |}.

Definition world_with (server : Scripted) (threshold : Z)
    (buffer : list dict) : world Scripted :=
  {| self := manager_with threshold buffer; solr := server; trace := [] |}.

(** A server that accepts every request, and one that rejects every
    batch with a [SolrError]. *)
Inductive Obliging := obliging.

Global Instance obliging_client : SolrClient Obliging := {|
  solr_send_request _ _ s := (Ok (PDict ∅), s);
  solr_add _ _ s := (Ok (), s);
  solr_delete_id _ _ s := (Ok (), s);
  solr_delete_q _ s := (Ok (), s);
  solr_search _ _ _ s :=
    (Ok {| results_docs := []; results_hits := 0 |}, s);
  solr_commit s := (Ok (), s)
|}.

Inductive Refusing := refusing.

Global Instance refusing_client : SolrClient Refusing := {|
  solr_send_request _ _ s := (Ok (PDict ∅), s);
  solr_add _ _ s := (Raise SolrError, s);
  solr_delete_id _ _ s := (Ok (), s);
  solr_delete_q _ s := (Ok (), s);
  solr_search _ _ _ s :=
    (Ok {| results_docs := []; results_hits := 0 |}, s);
  solr_commit s := (Ok (), s)
|}.

(** A server whose schema declares the field [id] and gives a list where
    the dynamic fields should be. *)
Definition odd_schema_server : Scripted :=
  {| schema_reply :=
       Ok (PDict {[ "schema" :=
             PDict {[ "fields" := PDict {[ "id" := PDict ∅ ]};
                      "dynamicFields" := PList [] ]} ]});
     add_reply := Ok ();
     search_reply := Ok {| results_docs := []; results_hits := 0 |} |}.

(** A manager after [build_fields] has read [names] and [dynamic]. *)
Definition manager_with_schema (names dynamic : list string) : DocManager :=
  {| unique_key := "_id"; auto_commit := true;
     field_list := FieldsTuple names; dynamic_field_list := dynamic;
     commit_bulk_max := 1000; commit_bulk_num := 0;
     bulk_docs_send := 10; bulk_docs_counter := 0; docs := [] |}.

(** A glossary entry with two language codes that give the same field
    name. *)
Definition glossary_entry : dict :=
  {[ "_id" := PStr "g1"; "GlossaryId" := PInt 7;
     "SourceTerm" := PStr "file"; "Notes" := PStr "noun";
     "TargetTerms" :=
       PList [PDict {[ "LangCode" := PStr "en-US";
                       "Terms" := PList [PStr "file"] ]};
              PDict {[ "LangCode" := PStr "en_US";
                       "Terms" := PList [PStr "document"] ]}] ]}.

(** What [transform_doc_old] makes of it. *)
Definition glossary_flat : dict :=
  {[ "_id" := PStr "g1"; "GlossaryId" := PInt 7;
     "SourceTerm" := PStr "file"; "Notes" := PStr "noun";
     "en_us_target_term" := PStr "document" ]}.

(** A server whose schema declares three fields and one dynamic field. *)
Definition schema_server : Scripted :=
  {| schema_reply :=
       Ok (PDict {[ "schema" :=
             PDict {[ "fields" :=
                        PDict {[ "_id" := PDict ∅; "id" := PDict ∅;
                                 "phone" := PDict ∅ ]};
                      "dynamicFields" := PDict {[ "cs_*" := PDict ∅ ]} ]} ]});
     add_reply := Ok ();
     search_reply := Ok {| results_docs := []; results_hits := 0 |} |}.

(** A server whose schema reply is a list. *)
Definition list_schema_server : Scripted :=
  {| schema_reply := Ok (PList []); add_reply := Ok ();
     search_reply := Ok {| results_docs := []; results_hits := 0 |} |}.

(** A server none of whose requests gets through. *)
Inductive Unreachable := unreachable.

Global Instance unreachable_client : SolrClient Unreachable := {|
  solr_send_request _ _ s := (Raise ConnectionError, s);
  solr_add _ _ s := (Raise ConnectionError, s);
  solr_delete_id _ _ s := (Raise ConnectionError, s);
  solr_delete_q _ s := (Raise ConnectionError, s);
  solr_search _ _ _ s := (Raise ConnectionError, s);
  solr_commit s := (Raise ConnectionError, s)
|}.

(** * Properties *)

(** ** [transform_doc] *)

Section transform_facts.
Local Arguments copy_if_present : simpl never.
Local Arguments value_data : simpl never.

Lemma copy_if_present_dict c src dst new_doc :
  copy_if_present (Ok (PDict c)) src dst new_doc
  = Ok (put dst (c !! src) new_doc).
Proof.
  unfold copy_if_present, has_key, subscript, getitem. cbn.
  by destruct (c !! src).
Qed.

Lemma value_data_eq doc :
  value_data doc =
    match doc !! "value" with
    | None => Raise (KeyError "value")
    | Some (PDict value) =>
      match value !! "data" with
      | None => Raise (KeyError "data")
      | Some data => Ok data
      end
    | Some _ => Raise TypeError
    end.
Proof.
  unfold value_data, getitem.
  by destruct (doc !! "value") as [[| | | | |value]|].
Qed.

(** Every way [transform_doc] can end. *)
Lemma transform_doc_cases doc :
  transform_doc doc =
    match doc !! "_id" with
    | None => Raise (KeyError "_id")
    | Some _id =>
      match doc !! "value" with
      | None => Raise (KeyError "value")
      | Some (PDict value) =>
        match value !! "data" with
        | None => Raise (KeyError "data")
        | Some (PDict data) =>
          match data !! "address" with
          | None => Ok (leaves data (ids _id))
          | Some (PDict address) =>
            Ok (leaves data (address_leaves address (ids _id)))
          | Some _ => Raise AttributeError
          end
        | Some _ => Raise AttributeError
        end
      | Some _ => Raise TypeError
      end
    end.
Proof.
  unfold transform_doc, value_data_address. rewrite value_data_eq.
  unfold getitem.
  destruct (doc !! "_id") as [_id|]; cbn; [|done].
  destruct (doc !! "value") as [[| | | | |value]|]; cbn; try done.
  destruct (value !! "data") as [[| | | | |data]|]; cbn; try done.
  unfold getitem.
  destruct (data !! "address") as [[| | | | |address]|]; cbn; try done;
    by repeat (rewrite copy_if_present_dict; cbn).
Qed.

Lemma lookup_put_eq dst v (m : dict) :
  put dst v m !! dst = from_option Some (m !! dst) v.
Proof. destruct v; cbn; [by rewrite lookup_insert_eq|done]. Qed.

Lemma lookup_put_ne dst v (m : dict) k :
  dst ≠ k → put dst v m !! k = m !! k.
Proof. intros. destruct v; cbn; [by rewrite lookup_insert_ne|done]. Qed.

Lemma address_leaves_empty new_doc : address_leaves ∅ new_doc = new_doc.
Proof. unfold address_leaves. by rewrite !lookup_empty. Qed.
End transform_facts.

(** Reads a field of a flat document built by [leaves], [address_leaves]
    and [ids] when the name of the field is known. *)
Ltac walk_lookups :=
  unfold leaves, address_leaves, ids;
  repeat first
    [ rewrite lookup_put_ne by done
    | rewrite lookup_insert_ne by done
    | rewrite lookup_put_eq
    | rewrite lookup_insert_eq
    | rewrite lookup_empty ].

(** The same for an unknown name [k]: either it is one of the names written,
    or the field is absent. *)
Ltac split_on_key k :=
  unfold leaves, address_leaves, ids;
  repeat match goal with
  | |- context [put ?d _ _ !! k] =>
    destruct (decide (d = k)) as [<-|];
    [ intros _; cbn; rewrite !elem_of_cons; tauto
    | rewrite lookup_put_ne by done ]
  | |- context [<[?d := _]> _ !! k] =>
    destruct (decide (d = k)) as [<-|];
    [ intros _; cbn; rewrite !elem_of_cons; tauto
    | rewrite lookup_insert_ne by done ]
  end;
  rewrite lookup_empty; by intros [? ?].

(** C7: [transform_doc] maps [{_id: "x1", value: {data: {name: "Acme",
    phone: "555"}}}] to exactly [{_id: "x1", id: "x1", cs_name: "Acme",
    phone: "555"}].  In general, whenever it returns, the identifier is
    stored under both [_id] and [id], each Solr field of the mapping holds
    the value of its source field and is absent when the source field is
    absent, and the output has no other key. *)
Theorem C7_transform_doc_flat_output :
  transform_doc acme = Ok acme_flat
  ∧ ∀ doc new_doc, transform_doc doc = Ok new_doc →
      (∃ _id, doc !! "_id" = Some _id ∧ new_doc !! "_id" = Some _id
              ∧ new_doc !! "id" = Some _id)
      ∧ (∃ data, value_data doc = Ok (PDict data)
           ∧ (∀ src dst, (src, dst) ∈ data_fields →
                new_doc !! dst = data !! src)
           ∧ (∀ src dst, (src, dst) ∈ address_fields →
                new_doc !! dst =
                  data !! "address" ≫= λ a,
                    match a with PDict a => a !! src | _ => None end))
      ∧ (∀ k, is_Some (new_doc !! k) →
           k ∈ "_id" :: "id" :: (data_fields ++ address_fields).*2).
Proof.
  split; [reflexivity|].
  intros doc new_doc. rewrite transform_doc_cases, value_data_eq.
  destruct (doc !! "_id") as [_id|]; [|done].
  destruct (doc !! "value") as [[| | | | |value]|]; try done.
  destruct (value !! "data") as [[| | | | |data]|]; try done.
  destruct (data !! "address") as [[| | | | |address]|] eqn:Ha; try done;
    intros [= <-]; (split; [|split]).
  - exists _id. by walk_lookups.
  - exists data. split; [done|]. split; intros src dst Hin;
      repeat (apply elem_of_cons in Hin as [[= -> ->]|Hin]);
      try (by apply elem_of_nil in Hin); walk_lookups; rewrite ?Ha; cbn;
      first [done
            | match goal with
              | |- from_option Some None ?x = _ => by destruct x
              end].
  - intros k. split_on_key k.
  - exists _id. by walk_lookups.
  - exists data. split; [done|]. split; intros src dst Hin;
      repeat (apply elem_of_cons in Hin as [[= -> ->]|Hin]);
      try (by apply elem_of_nil in Hin); walk_lookups; rewrite ?Ha; cbn;
      first [done
            | match goal with
              | |- from_option Some None ?x = _ => by destruct x
              end].
  - intros k. split_on_key k.
Qed.

Lemma C7_transform_doc_flat_output_witness :
  (∃ _id, acme !! "_id" = Some _id ∧ acme_flat !! "_id" = Some _id
          ∧ acme_flat !! "id" = Some _id)
  ∧ (∃ data, value_data acme = Ok (PDict data)
       ∧ (∀ src dst, (src, dst) ∈ data_fields →
            acme_flat !! dst = data !! src)
       ∧ (∀ src dst, (src, dst) ∈ address_fields →
            acme_flat !! dst =
              data !! "address" ≫= λ a,
                match a with PDict a => a !! src | _ => None end))
  ∧ (∀ k, is_Some (acme_flat !! k) →
       k ∈ "_id" :: "id" :: (data_fields ++ address_fields).*2).
Proof.
  apply (proj2 C7_transform_doc_flat_output acme acme_flat). reflexivity.
Defined.

(** C4, as the code has it: [transform_doc] returns exactly when [_id] is
    present, [value] is an object, [value.data] is an object and
    [value.data.address] is absent or an object.  A document without [_id]
    fails with [KeyError('_id')] whatever else it holds, so does
    [{value: {data: {}}}]; a document without [value] or without
    [value.data] fails with the [KeyError] of that key.  A missing [address]
    is the same as an empty one, and no leaf field is needed. *)
Theorem C4_transform_doc_failures :
  (∀ doc,
     (∃ new_doc, transform_doc doc = Ok new_doc) ↔
     is_Some (doc !! "_id")
     ∧ ∃ value data,
         doc !! "value" = Some (PDict value)
         ∧ value !! "data" = Some (PDict data)
         ∧ (data !! "address" = None
            ∨ ∃ address, data !! "address" = Some (PDict address)))
  ∧ (∀ doc, doc !! "_id" = None → transform_doc doc = Raise (KeyError "_id"))
  ∧ (∀ doc, is_Some (doc !! "_id") → doc !! "value" = None →
       transform_doc doc = Raise (KeyError "value"))
  ∧ (∀ doc value, is_Some (doc !! "_id") →
       doc !! "value" = Some (PDict value) → value !! "data" = None →
       transform_doc doc = Raise (KeyError "data"))
  ∧ (∀ doc value data,
       doc !! "value" = Some (PDict value) →
       value !! "data" = Some (PDict data) →
       data !! "address" = None →
       transform_doc
         (<["value" := PDict (<["data" :=
              PDict (<["address" := PDict ∅]> data)]> value)]> doc)
       = transform_doc doc)
  ∧ transform_doc {[ "value" := PDict {[ "data" := PDict ∅ ]} ]}
    = Raise (KeyError "_id").
Proof.
  split_and!.
  - intros doc. rewrite transform_doc_cases. split.
    + intros [new_doc Hdoc].
      destruct (doc !! "_id") as [_id|]; [|done]. split; [done|].
      destruct (doc !! "value") as [[| | | | |value]|]; try done.
      destruct (value !! "data") as [[| | | | |data]|] eqn:Hd; try done.
      exists value, data. split_and!; [done..|].
      destruct (data !! "address") as [[| | | | |address]|]; try done; eauto.
    + intros ([_id ->] & value & data & -> & -> & [->|[address ->]]); eauto.
  - intros doc Hid. by rewrite transform_doc_cases, Hid.
  - intros doc [_id Hid] Hv. by rewrite transform_doc_cases, Hid, Hv.
  - intros doc value [_id Hid] Hv Hd.
    by rewrite transform_doc_cases, Hid, Hv, Hd.
  - intros doc value data Hv Hd Ha. rewrite !transform_doc_cases.
    rewrite lookup_insert_ne by done. rewrite !lookup_insert_eq, Hv, Hd, Ha.
    destruct (doc !! "_id") as [_id|]; [|done].
    rewrite address_leaves_empty. unfold leaves.
    by rewrite !lookup_insert_ne by done.
  - reflexivity.
Qed.

Lemma C4_transform_doc_failures_witness :
  transform_doc {[ "_id" := PStr "x1" ]} = Raise (KeyError "value")
  ∧ transform_doc
      (<["value" := PDict (<["data" := PDict (<["address" := PDict ∅]> ∅)]>
                             {[ "data" := PDict ∅ ]})]>
         {[ "_id" := PStr "x1"; "value" := PDict {[ "data" := PDict ∅ ]} ]})
    = transform_doc
        {[ "_id" := PStr "x1"; "value" := PDict {[ "data" := PDict ∅ ]} ]}.
Proof.
  split.
  - apply (proj1 (proj2 (proj2 C4_transform_doc_failures))).
    + eexists. reflexivity.
    + reflexivity.
  - apply (proj1 (proj2 (proj2 (proj2 (proj2 C4_transform_doc_failures)))));
      reflexivity.
Defined.

(** C4 as stated fails: a document that has its [_id] but no [value] is
    refused. *)
Lemma C4_transform_doc_counterexample :
  ¬ (∀ doc, is_Some (doc !! "_id") → ∃ new_doc, transform_doc doc = Ok new_doc).
Proof.
  intros Hclaim.
  destruct (Hclaim {[ "_id" := PStr "x1" ]}) as [new_doc Hdoc].
  - eexists. reflexivity.
  - vm_compute in Hdoc. discriminate Hdoc.
Qed.

(** ** The regular expressions of [clean_doc] *)

Module re_facts.
Import re.

Lemma last_or_cons prev c s : last_or prev (c :: s) = last_or (Some c) s.
Proof. unfold last_or. rewrite last_cons. by destruct (last s). Qed.

(** A word character is no metacharacter. *)
Lemma word_is_plain c :
  is_word c = true →
  Ascii.eqb c "*" = false ∧ Ascii.eqb c "\" = false
  ∧ is_special c = false ∧ Ascii.eqb c "." = false.
Proof.
  destruct c as [[] [] [] [] [] [] [] []]; vm_compute; intuition congruence.
Qed.

Lemma exec_star_unfold a r prev s :
  exec (Star a :: r) prev s =
    match s with
    | c :: s' =>
      (atom_ok a c && exec (Star a :: r) (Some c) s') || exec r prev s
    | [] => exec r prev s
    end.
Proof. by destruct s. Qed.

(** Literal characters match themselves, one after the other. *)
Lemma exec_lits s r prev k :
  exec (lits s ++ r) prev k = true ↔
  ∃ k', k = s ++ k' ∧ exec r (last_or prev s) k' = true.
Proof.
  revert prev k. induction s as [|c s IH]; intros prev k; cbn.
  - split; [eauto|]. by intros (? & -> & ?).
  - destruct k as [|x k].
    + split; [done|]. by intros (? & ? & ?).
    + rewrite andb_true_iff, IH, Ascii.eqb_eq, last_or_cons. split.
      * intros (-> & k' & -> & ?). eauto.
      * intros (k' & [= -> ->] & ?). eauto.
Qed.

(** A starred atom takes some run of characters it accepts. *)
Lemma exec_star a r prev k :
  exec (Star a :: r) prev k = true ↔
  ∃ w k', k = w ++ k' ∧ forallb (atom_ok a) w = true
          ∧ exec r (last_or prev w) k' = true.
Proof.
  revert prev. induction k as [|x k IH]; intros prev;
    rewrite exec_star_unfold.
  - split.
    + intros ?. by exists [], [].
    + intros (w & k' & Hk & _ & Hr). symmetry in Hk.
      apply app_eq_nil in Hk as [-> ->]. done.
  - rewrite orb_true_iff, andb_true_iff, IH. split.
    + intros [(Hx & w & k' & -> & Hw & Hr)|Hr].
      * exists (x :: w), k'. rewrite last_or_cons. cbn. by rewrite Hx, Hw.
      * by exists [], (x :: k).
    + intros ([|y w] & k' & Hk & Hw & Hr).
      * right. by rewrite Hk.
      * left. cbn in Hk, Hw. injection Hk as -> ->.
        apply andb_true_iff in Hw as [Hx Hw]. rewrite last_or_cons in Hr.
        eauto 10.
Qed.

(** Word characters are parsed as literals when no star follows them. *)
Lemma parse_lits s t :
  forallb is_word s = true →
  head t ≠ Some "*"%char →
  parse (s ++ t) = (lits s ++.) <$> parse t.
Proof.
  induction s as [|c s IH]; intros Hs Ht.
  - cbn. by destruct (parse t).
  - cbn in Hs. apply andb_true_iff in Hs as [Hc Hs].
    destruct (word_is_plain c Hc) as (E1 & E2 & E3 & E4).
    cbn [app parse]. rewrite E1, E2, E3, E4. cbn [andb].
    assert (head (s ++ t) ≠ Some "*"%char) as Hq.
    { destruct s as [|d s]; [done|]. cbn in *.
      apply andb_true_iff in Hs as [Hd _].
      destruct (word_is_plain d Hd) as (Ed & _).
      intros [= ->]. done. }
    destruct (s ++ t) as [|q u] eqn:Hu.
    + apply app_eq_nil in Hu as [-> ->]. done.
    + destruct (Ascii.eqb_spec q "*") as [->|_]; [done|].
      rewrite IH by done. by destruct (parse t).
Qed.

Lemma word_opt_last_or prev s :
  forallb is_word s = true → s ≠ [] → word_opt (last_or prev s) = true.
Proof.
  intros Hs Hne. apply last_is_Some in Hne as [x Hx].
  unfold last_or. rewrite Hx. cbn.
  apply last_Some in Hx as [s' ->].
  rewrite forallb_app in Hs. cbn in Hs.
  by destruct (is_word x); [|rewrite andb_false_r in Hs].
Qed.

Lemma list_ascii_of_string_app a b :
  list_ascii_of_string (a +:+ b)
  = list_ascii_of_string a ++ list_ascii_of_string b.
Proof. induction a as [|c a IH]; [done|]. cbn. by rewrite <-IH. Qed.

Lemma string_of_list_ascii_app a b :
  string_of_list_ascii (a ++ b)
  = string_of_list_ascii a +:+ string_of_list_ascii b.
Proof. induction a as [|c a IH]; [done|]. cbn. by rewrite IH. Qed.

Lemma split_string k (a b : list ascii) :
  list_ascii_of_string k = a ++ b →
  k = string_of_list_ascii a +:+ string_of_list_ascii b.
Proof.
  intros Hk. rewrite <-string_of_list_ascii_app, <-Hk.
  by rewrite string_of_list_ascii_of_string.
Qed.

(** The expression built for a name that starts with a star. *)
Lemma compile_leading suffix :
  forallb is_word (list_ascii_of_string suffix) = true →
  compile ("\w" +:+ String "*" suffix +:+ "\b")
  = Ok (Star Word :: lits (list_ascii_of_string suffix) ++ [Boundary]).
Proof.
  intros Hs. unfold compile.
  change (list_ascii_of_string ("\w" +:+ String "*" suffix +:+ "\b"))
    with ("\"%char :: "w"%char :: "*"%char
          :: list_ascii_of_string (suffix +:+ "\b")).
  rewrite list_ascii_of_string_app. cbn [parse].
  change (Ascii.eqb "\" "*") with false.
  change (Ascii.eqb "\" "\") with true.
  change (Ascii.eqb "w" "b") with false.
  change (Ascii.eqb "w" "w") with true.
  change (Ascii.eqb "*" "*") with true. cbn match.
  by rewrite parse_lits.
Qed.

(** The expression built for a name that ends with a star: the star
    goes to the last character of the name. *)
Lemma compile_trailing prefix c :
  forallb is_word (list_ascii_of_string prefix) = true →
  is_word c = true →
  compile ("\b" +:+ (prefix +:+ String c "*") +:+ "\w")
  = Ok (Boundary :: lits (list_ascii_of_string prefix)
          ++ [Star (Lit c); One Word]).
Proof.
  intros Hp Hc. unfold compile.
  change (list_ascii_of_string
            ("\b" +:+ (prefix +:+ String c "*") +:+ "\w"))
    with ("\"%char :: "b"%char
          :: list_ascii_of_string ((prefix +:+ String c "*") +:+ "\w")).
  rewrite !list_ascii_of_string_app, <-(assoc_L (++)). cbn [parse].
  change (Ascii.eqb "\" "*") with false.
  change (Ascii.eqb "\" "\") with true.
  change (Ascii.eqb "b" "b") with true. cbn match.
  rewrite parse_lits; [|done|].
  - destruct (word_is_plain c Hc) as (E1 & E2 & E3 & E4).
    cbn. by rewrite E1, E2, E3, E4.
  - cbn. destruct (word_is_plain c Hc) as (E1 & _). intros [= ->]. done.
Qed.
End re_facts.

(** ** Dynamic patterns *)

Section dynamic_facts.
Import re re_facts.
Local Existing Instance py_re.

Lemma all_word_forallb s :
  all_word s = forallb is_word (list_ascii_of_string s).
Proof. induction s as [|c s IH]; cbn; [done|by rewrite IH]. Qed.

Lemma all_word_app a b : all_word (a +:+ b) = all_word a && all_word b.
Proof.
  by rewrite !all_word_forallb, list_ascii_of_string_app, forallb_app.
Qed.

Lemma starts_with_word_head s :
  starts_with_word s = word_opt (head (list_ascii_of_string s)).
Proof. by destruct s. Qed.

Lemma string_nonempty s : s ≠ "" → list_ascii_of_string s ≠ [].
Proof. by destruct s. Qed.

Lemma string_app_assoc a b c : (a +:+ b) +:+ c = a +:+ b +:+ c.
Proof.
  induction a as [|x a IH]; [done|].
  change (String x ((a +:+ b) +:+ c) = String x (a +:+ b +:+ c)).
  by rewrite IH.
Qed.

Lemma string_app_nil_r a : a +:+ "" = a.
Proof.
  induction a as [|x a IH]; [done|].
  change (String x (a +:+ "") = String x a). by rewrite IH.
Qed.

(** A non-empty string is its [chop] and its last character. *)
Lemma chop_last s :
  s ≠ "" → ∃ c, s = chop s +:+ String c "".
Proof.
  induction s as [|x s IH]; [done|]. intros _.
  destruct s as [|y s]; [by exists x|].
  destruct IH as [c Hc]; [done|]. exists c.
  change (String x (String y s)
          = String x (chop (String y s) +:+ String c "")).
  by rewrite <-Hc.
Qed.

(** A name [*suffix]: some word characters, the suffix, and then the
    end of the word. *)
Lemma dynamic_match_leading suffix k :
  all_word suffix = true → suffix ≠ "" →
  ∃ m, dynamic_match ("*" +:+ suffix) k = Ok m
    ∧ (m = true ↔
       ∃ w rest, k = w +:+ suffix +:+ rest ∧ all_word w = true
                 ∧ starts_with_word rest = false).
Proof.
  rewrite all_word_forallb. intros Hs Hne%string_nonempty.
  eexists. split.
  { change ("*" +:+ suffix) with (String "*" suffix).
    unfold dynamic_match. change (Ascii.eqb "*" "*") with true. cbn match.
    change (re_compile ?t) with (compile t).
    rewrite compile_leading by done. reflexivity. }
  change (re_match ?r ?s) with (exec r None (list_ascii_of_string s)).
  rewrite exec_star. split.
  - intros (w & k' & Hk & Hw & (r & -> & Hb)%exec_lits).
    cbn in Hb. rewrite word_opt_last_or in Hb by done.
    exists (string_of_list_ascii w), (string_of_list_ascii r).
    rewrite all_word_forallb, starts_with_word_head.
    rewrite !list_ascii_of_string_of_list_ascii. split_and!; [|done|].
    + apply split_string in Hk as ->. f_equal.
      rewrite string_of_list_ascii_app.
      by rewrite string_of_list_ascii_of_string.
    + by destruct (word_opt (head r)).
  - intros (w & rest & -> & Hw & Hr).
    rewrite all_word_forallb in Hw. rewrite starts_with_word_head in Hr.
    eexists _, _. rewrite !list_ascii_of_string_app. split_and!; [done..|].
    apply exec_lits. eexists. split; [done|].
    cbn. rewrite word_opt_last_or by done. by rewrite Hr.
Qed.

(** The name [*] alone. *)
Lemma dynamic_match_star k : dynamic_match "*" k = Ok (starts_with_word k).
Proof.
  unfold dynamic_match. change (Ascii.eqb "*" "*") with true. cbn match.
  change (re_compile ?t) with (compile t).
  change (compile ("\w" +:+ "*" +:+ "\b")) with (Ok [Star Word; Boundary]).
  cbn [mbind outcome_bind]. f_equal.
  change (re_match ?r ?s) with (exec r None (list_ascii_of_string s)).
  rewrite starts_with_word_head.
  apply eq_true_iff_eq. rewrite exec_star. split.
  - intros ([|x w] & k' & -> & Hw & Hb); cbn in *.
    + by destruct (word_opt (head k')).
    + by apply andb_true_iff in Hw as [-> _].
  - intros Hk. exists [], (list_ascii_of_string k). cbn. by rewrite Hk.
Qed.

(** A name [prefix c *]: the prefix, any number of [c], one word
    character. *)
Lemma dynamic_match_trailing prefix c k :
  all_word prefix = true → is_word c = true →
  ∃ m, dynamic_match (prefix +:+ String c "*") k = Ok m
    ∧ (m = true ↔
       ∃ x rest, k = prefix +:+ String x rest ∧ is_word x = true).
Proof.
  intros Hp Hc. eexists. split.
  { unfold dynamic_match.
    assert (∃ d t, prefix +:+ String c "*" = String d t
                   ∧ Ascii.eqb d "*" = false) as (d & t & Hf & Hd).
    { destruct prefix as [|d p]; cbn in *.
      - eexists _, _. split; [done|]. by apply word_is_plain.
      - eexists _, _. split; [done|].
        apply andb_true_iff in Hp as [Hd _]. by apply word_is_plain. }
    rewrite Hf, Hd, <-Hf. change (re_compile ?t) with (compile t).
    rewrite all_word_forallb in Hp.
    rewrite compile_trailing by done. reflexivity. }
  rewrite all_word_forallb in Hp.
  change (re_match ?r ?s) with (exec r None (list_ascii_of_string s)).
  set (P := list_ascii_of_string prefix) in *.
  cbn [exec app]. rewrite andb_true_iff, exec_lits. split.
  - intros (_ & k' & Hk & ([|y w] & k'' & -> & Hw & Hx)%exec_star).
    + destruct k'' as [|x rest]; [done|]. cbn in Hx.
      apply andb_true_iff in Hx as [Hx _].
      exists x, (string_of_list_ascii rest). split; [|done].
      apply split_string in Hk as ->. unfold P.
      by rewrite string_of_list_ascii_of_string.
    + cbn in Hw. apply andb_true_iff in Hw as [->%Ascii.eqb_eq _].
      exists y, (string_of_list_ascii (w ++ k'')). split; [|done].
      apply split_string in Hk as ->. unfold P.
      by rewrite string_of_list_ascii_of_string.
  - intros (x & rest & -> & Hx).
    rewrite list_ascii_of_string_app. fold P. cbn [list_ascii_of_string].
    split.
    + destruct P as [|d P']; cbn in *; [by rewrite Hx|].
      by apply andb_true_iff in Hp as [-> _].
    + eexists. split; [done|]. apply exec_star.
      exists [], (x :: list_ascii_of_string rest). cbn. by rewrite Hx.
Qed.

(** A document with one key, a schema with one pattern. *)
Lemma clean_doc_single_pattern self names p k v :
  field_list self = FieldsTuple names → k ∉ names →
  dynamic_field_list self = [p] →
  clean_doc self {[ k := v ]}
  = m ← dynamic_match p k; mret (if m : bool then {[ k := v ]} else ∅).
Proof.
  intros Hfl Hk Hdyn. unfold clean_doc. rewrite Hfl, Hdyn. cbn [falsy].
  rewrite map_to_list_singleton. cbn [for_in].
  rewrite bool_decide_eq_false_2 by done.
  destruct (dynamic_match p k) as [[]|]; cbn; [|done..].
  by rewrite insert_empty.
Qed.

(** C3, as the code has it, for names and keys made of word characters.
    Under a name [*s] the filter keeps a key exactly when the key ends
    with [s]; no character has to precede [s].  Under a name [q*] it
    keeps every key that starts with [q] followed by at least one
    character, and every key it keeps starts with [q] less its last
    character followed by at least one character.  So [cs_*] keeps
    [cs_name] and not [cs], and [*_term] keeps [en_target_term] and not
    [term].  Keeping a key under a pattern is what [clean_doc] does to a
    document with that key when the schema has that pattern only. *)
Theorem C3_dynamic_patterns_on_word_keys :
  (dynamic_match "cs_*" "cs_name" = Ok true
   ∧ dynamic_match "cs_*" "cs" = Ok false
   ∧ dynamic_match "*_term" "en_target_term" = Ok true
   ∧ dynamic_match "*_term" "term" = Ok false)
  ∧ (∀ stem key,
       all_word stem = true → stem ≠ "" → all_word key = true →
       (∃ m, dynamic_match ("*" +:+ stem) key = Ok m
          ∧ (m = true ↔ ∃ w, key = w +:+ stem))
       ∧ (∃ m, dynamic_match (stem +:+ "*") key = Ok m
            ∧ ((∃ x rest, key = stem +:+ String x rest) → m = true)
            ∧ (m = true → ∃ x rest, key = chop stem +:+ String x rest)))
  ∧ (∀ self names p key value,
       field_list self = FieldsTuple names → key ∉ names →
       dynamic_field_list self = [p] →
       clean_doc self {[ key := value ]}
       = m ← dynamic_match p key;
         mret (if m : bool then {[ key := value ]} else ∅)).
Proof.
  split_and!; [by vm_compute..| |apply clean_doc_single_pattern].
  intros stem key Hstem Hne Hkey. split.
  - destruct (dynamic_match_leading stem key Hstem Hne) as (m & Hm & Hiff).
    exists m. split; [done|]. rewrite Hiff. split.
    + intros (w & rest & -> & Hw & Hrest).
      rewrite !all_word_app in Hkey.
      apply andb_true_iff in Hkey as [_ [_ Hr]%andb_true_iff].
      destruct rest as [|x rest]; [|cbn in *; by destruct (is_word x)].
      exists w. by rewrite string_app_nil_r.
    + intros [w ->]. exists w, "". rewrite string_app_nil_r.
      rewrite all_word_app in Hkey.
      by apply andb_true_iff in Hkey as [-> _].
  - destruct (chop_last stem Hne) as [c Hc].
    assert (all_word (chop stem) = true ∧ is_word c = true) as [Hp Hcw].
    { rewrite Hc, all_word_app in Hstem. cbn in Hstem.
      apply andb_true_iff in Hstem as [? Hcw]. split; [done|].
      by destruct (is_word c). }
    destruct (dynamic_match_trailing (chop stem) c key Hp Hcw)
      as (m & Hm & Hiff).
    exists m. split_and!.
    + rewrite Hc at 1. by rewrite string_app_assoc.
    + intros (x & rest & ->). apply Hiff. exists c, (String x rest).
      split; [|done]. rewrite Hc at 1. by rewrite string_app_assoc.
    + intros (x & rest & -> & _)%Hiff. eauto.
Qed.

Lemma C3_dynamic_patterns_on_word_keys_witness :
  (∃ m, dynamic_match ("*" +:+ "_term") "en_target_term" = Ok m
     ∧ (m = true ↔ ∃ w, "en_target_term" = w +:+ "_term"))
  ∧ (∃ m, dynamic_match ("_term" +:+ "*") "en_target_term" = Ok m
       ∧ ((∃ x rest, "en_target_term" = "_term" +:+ String x rest)
          → m = true)
       ∧ (m = true →
          ∃ x rest, "en_target_term" = chop "_term" +:+ String x rest)).
Proof.
  apply (proj1 (proj2 C3_dynamic_patterns_on_word_keys)).
  - reflexivity.
  - discriminate.
  - reflexivity.
Defined.

(** C3 as stated fails three ways: [*_term] keeps [_term], which nothing
    precedes; it drops [a.b_term], which ends with the suffix after a
    word character; and [cs_*] keeps [csx], which does not start with
    [cs_]. *)
Lemma C3_dynamic_patterns_counterexample :
  (dynamic_match "*_term" "_term" = Ok true
   ∧ ¬ ∃ w x, "_term" = w +:+ String x "_term" ∧ is_word x = true)
  ∧ (dynamic_match "*_term" "a.b_term" = Ok false
     ∧ ∃ w x, "a.b_term" = w +:+ String x "_term" ∧ is_word x = true)
  ∧ (dynamic_match "cs_*" "csx" = Ok true
     ∧ ¬ ∃ x rest, "csx" = "cs_" +:+ String x rest ∧ is_word x = true).
Proof.
  split_and!; try by vm_compute.
  - intros (w & x & Hk & _).
    apply (f_equal list_ascii_of_string) in Hk.
    rewrite list_ascii_of_string_app in Hk.
    apply (f_equal length) in Hk. rewrite length_app in Hk.
    cbn in Hk. lia.
  - by exists "a.", "b"%char.
  - intros (x & rest & Hk & _). discriminate Hk.
Qed.
End dynamic_facts.

(** ** [clean_doc] *)

Lemma filter_Forall_id {A} (P : A → Prop) `{!∀ x, Decision (P x)}
    (l : list A) :
  Forall P l → filter P l = l.
Proof.
  induction 1 as [|x l Hx _ IH]; [done|].
  by rewrite filter_cons_True, IH.
Qed.

Lemma for_in_skip {A B} (body : A → B → outcome B) (l : list A) (acc : B) :
  (∀ x acc, body x acc = Ok acc) → for_in l body acc = Ok acc.
Proof.
  intros Hbody. induction l as [|x l IH]; [done|].
  cbn. by rewrite Hbody.
Qed.

Section clean_facts.
Context `{ReModule}.

(** The loop over the patterns writes the key once or not at all. *)
Lemma inner_loop fields key value (acc : dict) found :
  for_in fields
    (λ field (fixed_doc : dict),
       m ← dynamic_match field key;
       mret (if m : bool then <[key := value]> fixed_doc else fixed_doc))
    (if found : bool then <[key := value]> acc else acc)
  = b ← any_dynamic fields key found;
    mret (if b : bool then <[key := value]> acc else acc).
Proof.
  revert found. induction fields as [|field fields IH]; intros found; [done|].
  cbn [for_in]. unfold any_dynamic. cbn [for_in].
  destruct (dynamic_match field key) as [m|e]; [|done].
  cbn [mbind outcome_bind mret outcome_ret].
  etrans; [|apply (IH (m || found))].
  f_equal. destruct m, found; cbn; try done.
  by rewrite insert_insert_eq.
Qed.

Section items.
Context (names fields : list string).

(** The body of the loop over [doc.items()]. *)
Let body : string * pyval → dict → outcome dict :=
  λ '(key, value) (fixed_doc : dict),
    if bool_decide (key ∈ names)
    then Ok (<[key := value]> fixed_doc)
    else
      for_in fields
        (λ field (fixed_doc : dict),
           m ← dynamic_match field key;
           mret (if m : bool then <[key := value]> fixed_doc
                 else fixed_doc))
        fixed_doc.

Let kept (kv : string * pyval) : Prop :=
  is_kept (key_kept names fields kv.1).

Lemma body_spec k v acc :
  body (k, v) acc
  = b ← key_kept names fields k;
    mret (if b : bool then <[k := v]> acc else acc).
Proof.
  unfold body, key_kept. case_bool_decide; [done|].
  apply (inner_loop fields k v acc false).
Qed.

(** When the loop returns, the test of every key has returned. *)
Lemma for_items_defined items acc r :
  for_in items body acc = Ok r →
  Forall (λ kv, ∃ b, key_kept names fields kv.1 = Ok b) items.
Proof.
  revert acc. induction items as [|[k v] items IH]; intros acc; [done|].
  cbn [for_in]. rewrite body_spec.
  destruct (key_kept names fields k) as [b|e] eqn:Hk; [|done].
  cbn. intros Hr. constructor; eauto.
Qed.

(** And then the loop is a filter. *)
Lemma for_items_filter items acc :
  Forall (λ kv, ∃ b, key_kept names fields kv.1 = Ok b) items →
  NoDup items.*1 →
  for_in items body acc = Ok (list_to_map (filter kept items) ∪ acc).
Proof.
  revert acc. induction items as [|[k v] items IH]; intros acc Hdef Hnd.
  { cbn. by rewrite (left_id_L ∅ (∪)). }
  apply Forall_cons in Hdef as [[b Hb] Hdef]. cbn in Hb.
  apply NoDup_cons in Hnd as [Hk Hnd].
  cbn [for_in]. rewrite body_spec, Hb. cbn. rewrite IH by done.
  f_equal.
  assert ((list_to_map (filter kept items) : dict) !! k = None) as Hnone.
  { apply not_elem_of_list_to_map_1. intros Hin. apply Hk.
    apply list_elem_of_fmap in Hin as (kv & -> & Hin%list_elem_of_filter).
    apply list_elem_of_fmap. exists kv. split; [done|]. apply Hin. }
  destruct b.
  - rewrite decide_True by (unfold kept; cbn; by rewrite Hb).
    rewrite list_to_map_cons, <-insert_union_l.
    by rewrite <-insert_union_r.
  - rewrite decide_False; [done|].
    unfold kept. cbn. rewrite Hb. cbn. tauto.
Qed.

Lemma for_items_idempotent (d r : dict) :
  for_in (map_to_list d) body ∅ = Ok r →
  for_in (map_to_list r) body ∅ = Ok r.
Proof.
  intros Hr. pose proof (for_items_defined _ _ _ Hr) as Hdef.
  rewrite for_items_filter in Hr; [|done|apply NoDup_fst_map_to_list].
  injection Hr as Hr. rewrite (right_id_L ∅ (∪)) in Hr.
  assert (Forall kept (map_to_list r)) as Hall.
  { apply Forall_forall. intros [k v] Hkv%elem_of_map_to_list.
    rewrite <-Hr in Hkv. apply elem_of_list_to_map_2 in Hkv.
    by apply list_elem_of_filter in Hkv as [? _]. }
  rewrite for_items_filter.
  - f_equal. rewrite (right_id_L ∅ (∪)).
    rewrite filter_Forall_id by done.
    by rewrite list_to_map_to_list.
  - eapply Forall_impl; [exact Hall|]. intros kv Hkv. unfold kept in Hkv.
    destruct (key_kept names fields kv.1) as [[]|]; eauto; done.
  - apply NoDup_fst_map_to_list.
Qed.
End items.

(** C8: filtering is idempotent.  For every manager state (whatever its
    field list and dynamic patterns are, under any regular expression
    engine) and every document, filtering the filtered document gives
    the filtered document again; when the first filtering raises, there
    is nothing to filter again and the exception is the outcome. *)
Theorem C8_clean_doc_idempotent (self : DocManager) (doc : dict) :
  clean_doc self doc ≫= clean_doc self = clean_doc self doc.
Proof.
  unfold clean_doc. destruct (falsy (field_list self)); [done|].
  match goal with
  | |- context [for_in (map_to_list doc) ?body ∅] =>
    destruct (for_in (map_to_list doc) body ∅) as [r|e] eqn:Hr; [|done]
  end.
  cbn. by apply for_items_idempotent in Hr.
Qed.

(** The guard of [clean_doc] lets a document through while [field_list]
    is the empty list of [__init__]. *)
Lemma clean_doc_before_build_fields self doc :
  field_list self = FieldsEmptyList → clean_doc self doc = Ok doc.
Proof. intros Hf. unfold clean_doc. by rewrite Hf. Qed.

(** With the tuple of [build_fields] the guard is never taken: a schema
    without names drops every key. *)
Lemma clean_doc_without_names self doc :
  field_list self = FieldsTuple [] → dynamic_field_list self = [] →
  clean_doc self doc = Ok ∅.
Proof.
  intros Hf Hd. unfold clean_doc. rewrite Hf, Hd. cbn [falsy].
  apply for_in_skip. intros [k v] acc.
  by rewrite bool_decide_eq_false_2 by apply not_elem_of_nil.
Qed.
End clean_facts.

(** ** The buffer *)

(** Runs the state monad: unfolds its operations and the reads of the
    state. *)
Ltac run :=
  cbv [mbind mret fmap M_bind M_ret M_fmap get_self request assign emit
       raise lift try_except];
  cbn [self solr trace].

Section buffer_facts.
Context `{ReModule} {S : Type} `{SolrClient S}.
Implicit Types w : world S.

Lemma sendDocsBulk_empty w :
  docs (self w) = [] → sendDocsBulk w = (Ok (), w).
Proof.
  intros Hd. unfold sendDocsBulk. run.
  rewrite bool_decide_eq_false_2 by (by rewrite Hd; intros []).
  done.
Qed.

(** The three ways a flush of a non-empty buffer ends. *)
Lemma sendDocsBulk_nonempty w :
  docs (self w) ≠ [] →
  sendDocsBulk w =
    match solr_add (docs (self w)) true (solr w) with
    | (Ok _, s') =>
      (Ok (),
       {| self := set_commit_bulk_num 0 (set_docs [] (self w)); solr := s';
          trace := trace w ++
            [SolrAdd (docs (self w)) true;
             LoggingInfo (BulkAdd (commit_bulk_num (self w)))] |})
    | (Raise e, s') =>
      if isinstance e "SolrError" then
        (Ok (),
         {| self := self w; solr := s';
            trace := trace w ++
              [SolrAdd (docs (self w)) true;
               LoggingError (CouldNotInsert (docs (self w)))] |})
      else
        (Raise e,
         {| self := self w; solr := s';
            trace := trace w ++
              [SolrAdd (docs (self w)) true; LoggingError (ExcInfo e)] |})
    end.
Proof.
  intros Hd. unfold sendDocsBulk. run.
  rewrite bool_decide_eq_true_2 by done. run.
  destruct (solr_add (docs (self w)) true (solr w)) as [[[]|e] s']; run.
  - by rewrite <-(assoc_L (++)).
  - destruct (isinstance e "SolrError"); run; by rewrite <-(assoc_L (++)).
Qed.

Lemma commit_unfold w :
  commit w = if bool_decide (docs (self w) ≠ []) then sendDocsBulk w
             else (Ok (), w).
Proof. unfold commit. run. by case_bool_decide. Qed.

Lemma upsert_unfold w doc doc' :
  transform_doc doc ≫= clean_doc (self w) = Ok doc' →
  upsert doc w =
    if bool_decide (commit_bulk_num (self w) + 1 >= commit_bulk_max (self w))
    then sendDocsBulk (buffered doc' w)
    else (Ok (), buffered doc' w).
Proof.
  intros Hdoc. unfold upsert. run. cbv [mbind] in Hdoc. rewrite Hdoc. cbn.
  case_bool_decide; [|done]. rewrite commit_unfold.
  rewrite bool_decide_eq_true_2; [done|]. cbn. by destruct (docs (self w)).
Qed.

Lemma upsert_raises w doc e :
  transform_doc doc ≫= clean_doc (self w) = Raise e →
  upsert doc w = (Raise e, w).
Proof.
  intros Hdoc. unfold upsert. run. cbv [mbind] in Hdoc. by rewrite Hdoc.
Qed.

(** C6, as the code has it: what decides is the class of the exception
    [solr.add] raises, not the kind of failure behind it.  The flush
    ([sendDocsBulk], and [commit] through it) raises exactly when the
    exception is no [SolrError]: it then logs the exception at error
    severity and raises it again.  A [SolrError] is logged and the flush
    returns normally, also when it reports a server that could not be
    reached.  Either way the manager, and with it the buffer and the
    counter, is what it was before the flush. *)
Theorem C6_flush_raises_unless_SolrError w e s' :
  docs (self w) ≠ [] →
  solr_add (docs (self w)) true (solr w) = (Raise e, s') →
  ((sendDocsBulk w).1 = Raise e ↔ isinstance e "SolrError" = false)
  ∧ ((commit w).1 = Raise e ↔ isinstance e "SolrError" = false)
  ∧ self (sendDocsBulk w).2 = self w
  ∧ self (commit w).2 = self w
  ∧ (isinstance e "SolrError" = false →
     let w' := {| self := self w; solr := s';
                  trace := trace w ++ [SolrAdd (docs (self w)) true;
                                      LoggingError (ExcInfo e)] |} in
     sendDocsBulk w = (Raise e, w') ∧ commit w = (Raise e, w'))
  ∧ (isinstance e "SolrError" = true →
     let w' := {| self := self w; solr := s';
                  trace := trace w ++
                    [SolrAdd (docs (self w)) true;
                     LoggingError (CouldNotInsert (docs (self w)))] |} in
     sendDocsBulk w = (Ok (), w') ∧ commit w = (Ok (), w')).
Proof.
  intros Hd Hadd. cbv zeta.
  rewrite commit_unfold, bool_decide_eq_true_2 by done.
  rewrite sendDocsBulk_nonempty, Hadd by done.
  destruct (isinstance e "SolrError"); cbn [fst snd self].
  - split_and!; try done; split; done.
  - split_and!; try done; split; done.
Qed.

(** C2, as the code has it: when [solr.add] raises a [SolrError], the
    flush logs the failure at error severity and returns normally; the
    manager, and with it the buffer and the counter, is what it was
    before the flush, so the next flush sends the same documents
    again. *)
Theorem C2_rejected_flush_keeps_the_batch w e s' :
  docs (self w) ≠ [] →
  solr_add (docs (self w)) true (solr w) = (Raise e, s') →
  isinstance e "SolrError" = true →
  let w' := {| self := self w; solr := s';
               trace := trace w ++
                 [SolrAdd (docs (self w)) true;
                  LoggingError (CouldNotInsert (docs (self w)))] |} in
  sendDocsBulk w = (Ok (), w') ∧ commit w = (Ok (), w')
  ∧ ∃ ev, trace (sendDocsBulk w').2
          = trace w' ++ [SolrAdd (docs (self w)) true; ev].
Proof.
  intros Hd Hadd He. cbv zeta.
  rewrite commit_unfold, bool_decide_eq_true_2 by done.
  rewrite sendDocsBulk_nonempty, Hadd, He by done. split_and!; [done..|].
  rewrite sendDocsBulk_nonempty by done. cbn [self solr trace].
  destruct (solr_add _ _ s') as [[[]|e'] s'']; [cbn; by eexists|].
  destruct (isinstance e' "SolrError"); cbn; by eexists.
Qed.


(** C9: [get_last_doc] asks once for everything, sorted by [_ts]
    descending, one row.  It returns the first document of the answer,
    or [None] when the answer has no document; it returns [None] when
    the search raises a [ValueError]; any other exception of the search
    reaches the caller.  The manager is unchanged. *)
Theorem C9_get_last_doc_absence_and_failures w :
  let query := SolrSearch "*:*" (Some "_ts desc") 1 in
  let after (s' : S) : world S :=
    {| self := self w; solr := s'; trace := trace w ++ [query] |} in
  (∀ result s',
     solr_search "*:*" (Some "_ts desc") 1 (solr w) = (Ok result, s') →
     get_last_doc w = (Ok (head (results_docs result)), after s'))
  ∧ (∀ e s',
       solr_search "*:*" (Some "_ts desc") 1 (solr w) = (Raise e, s') →
       isinstance e "ValueError" = true →
       get_last_doc w = (Ok None, after s'))
  ∧ (∀ e s',
       solr_search "*:*" (Some "_ts desc") 1 (solr w) = (Raise e, s') →
       isinstance e "ValueError" = false →
       get_last_doc w = (Raise e, after s')).
Proof.
  cbv zeta. split_and!.
  - intros result s' Hs. unfold get_last_doc. run. rewrite Hs.
    by destruct (results_docs result).
  - intros e s' Hs He. unfold get_last_doc. run. by rewrite Hs, He.
  - intros e s' Hs He. unfold get_last_doc. run. by rewrite Hs, He.
Qed.

Lemma sendDocsBulk_counter w :
  counter_matches_buffer (self w) →
  counter_matches_buffer (self (sendDocsBulk w).2).
Proof.
  intros Hinv. destruct (decide (docs (self w) = [])) as [Hd|Hd].
  - by rewrite sendDocsBulk_empty.
  - rewrite sendDocsBulk_nonempty by done.
    destruct (solr_add _ _ _) as [[[]|e] s']; [done|].
    by destruct (isinstance e "SolrError").
Qed.

Lemma buffered_counter doc w :
  counter_matches_buffer (self w) →
  counter_matches_buffer (self (buffered doc w)).
Proof.
  unfold counter_matches_buffer. cbn. intros ->.
  rewrite length_app. cbn. lia.
Qed.

Lemma upsert_counter doc w :
  counter_matches_buffer (self w) →
  counter_matches_buffer (self (upsert doc w).2).
Proof.
  intros Hinv.
  destruct (transform_doc doc ≫= clean_doc (self w)) as [doc'|e] eqn:Hdoc.
  - rewrite (upsert_unfold _ _ _ Hdoc). case_bool_decide.
    + by apply sendDocsBulk_counter, buffered_counter.
    + by apply buffered_counter.
  - by rewrite (upsert_raises _ _ _ Hdoc).
Qed.

Lemma run_call_counter c w :
  counter_matches_buffer (self w) →
  counter_matches_buffer (self (run_call c w).2).
Proof.
  intros Hinv. destruct c; cbn [run_call].
  - by apply upsert_counter.
  - rewrite commit_unfold. case_bool_decide; [|done].
    by apply sendDocsBulk_counter.
  - by apply sendDocsBulk_counter.
  - unfold remove. run. destruct (getitem _ _); [|done].
    by destruct (solr_delete_id _ _ _).
  - unfold _remove. run. by destruct (solr_delete_q _ _).
  - unfold search. run. by destruct (solr_search _ _ _ _) as [[] ?].
  - unfold _search. run. by destruct (solr_search _ _ _ _) as [[] ?].
  - unfold get_last_doc. run.
    destruct (solr_search _ _ _ _) as [[r|e] ?].
    + by destruct (results_docs r).
    + by destruct (isinstance e "ValueError"); cbn.
  - unfold run_auto_commit. run.
    destruct (solr_commit _) as [[] ?]; [|done].
    cbn. by destruct (auto_commit (self w)).
  - unfold build_fields. run.
    destruct (solr_send_request _ _ _) as [[result|] ?]; [|done].
    destruct (_parse_fields result "fields"); [|done].
    by destruct (_parse_fields result "dynamicFields").
  - done.
Qed.

(** C10: the counter equals the length of the buffer.  It does when
    [__init__] ends (also when it ends with an exception), every public
    method keeps it so whatever the server answers (an accepted batch, a
    rejected one, a failure that is raised again), and so it holds after
    any sequence of calls on a manager that was constructed. *)
Theorem C10_counter_equals_buffer_length :
  (∀ connection auto_commit unique_key,
     counter_matches_buffer
       (self (__init__ connection auto_commit unique_key).2))
  ∧ (∀ w c, counter_matches_buffer (self w) →
            counter_matches_buffer (self (run_call c w).2))
  ∧ (∀ connection auto_commit unique_key cs,
       counter_matches_buffer
         (self (run_calls cs
                  (__init__ connection auto_commit unique_key).2))).
Proof.
  assert (∀ connection ac uk,
            counter_matches_buffer (self (__init__ connection ac uk).2))
    as Hinit.
  { intros connection ac uk. unfold __init__.
    cbv [mbind M_bind].
    pose proof (run_call_counter call_build_fields) as Hb.
    cbn [run_call] in Hb.
    match goal with |- context [build_fields ?w0] =>
      specialize (Hb w0 eq_refl); destruct (build_fields w0) as [[[]|e] w1]
    end; [|done].
    destruct ac; [|done].
    apply (run_call_counter call_run_auto_commit _ Hb). }
  split_and!; [done|by intros w c; apply run_call_counter|].
  intros connection ac uk cs. specialize (Hinit connection ac uk).
  revert Hinit. generalize ((__init__ connection ac uk).2).
  induction cs as [|c cs IH]; intros w Hw; [done|].
  cbn [run_calls]. by apply IH, run_call_counter.
Qed.

(** C1 on the code: once [__init__] has read a schema that declares no
    field and no dynamic field, [clean_doc] returns the empty document
    for every document; the pass-through of its guard is not taken,
    because [field_list] is then a one-element tuple. *)
Theorem C1_empty_schema_drops_every_key connection auto_commit unique_key
    result s' doc :
  solr_send_request "get" ADMIN_URL connection = (Ok result, s') →
  _parse_fields result "fields" = Ok [] →
  _parse_fields result "dynamicFields" = Ok [] →
  clean_doc (self (__init__ connection auto_commit unique_key).2) doc
  = Ok ∅.
Proof.
  intros Hreq Hfields Hdyn. apply clean_doc_without_names;
    unfold __init__, build_fields; run; rewrite Hreq, Hfields, Hdyn;
    (destruct auto_commit; [|done]); unfold run_auto_commit; run;
    (destruct (solr_commit s') as [[[]|] ?]; [|done]); done.
Qed.
End buffer_facts.

(** ** The theorems at work on the scripted servers *)

Section examples.
Local Existing Instance py_re.

Lemma C1_empty_schema_drops_every_key_witness :
  clean_doc (self (__init__ bare_server false "_id").2) acme_flat = Ok ∅.
Proof.
  apply (C1_empty_schema_drops_every_key bare_server false "_id"
           (PDict ∅) bare_server acme_flat); reflexivity.
Defined.

Lemma C2_rejected_flush_keeps_the_batch_witness :
  let w := world_with rejecting_server 1000 [acme_flat] in
  let w' := {| self := self w; solr := rejecting_server;
               trace := trace w ++
                 [SolrAdd (docs (self w)) true;
                  LoggingError (CouldNotInsert (docs (self w)))] |} in
  sendDocsBulk w = (Ok (), w') ∧ commit w = (Ok (), w')
  ∧ ∃ ev, trace (sendDocsBulk w').2
          = trace w' ++ [SolrAdd (docs (self w)) true; ev].
Proof.
  apply (C2_rejected_flush_keeps_the_batch
           (world_with rejecting_server 1000 [acme_flat]) SolrError
           rejecting_server).
  - discriminate.
  - reflexivity.
  - reflexivity.
Defined.

(** C2 as stated fails: after a rejected flush the buffer still holds
    the batch and the counter still counts it. *)
Lemma C2_rejected_flush_counterexample :
  let w := world_with rejecting_server 1000 [acme_flat] in
  solr_add (docs (self w)) true (solr w) = (Raise SolrError, solr w)
  ∧ docs (self (sendDocsBulk w).2) = [acme_flat]
  ∧ commit_bulk_num (self (sendDocsBulk w).2) = 1
  ∧ ¬ (docs (self (sendDocsBulk w).2) = []
       ∧ commit_bulk_num (self (sendDocsBulk w).2) = 0).
Proof.
  cbv zeta. split_and!; [reflexivity..|]. intros [Hdocs _].
  vm_compute in Hdocs. discriminate Hdocs.
Qed.


Lemma C6_flush_raises_unless_SolrError_witness :
  (let w := world_with exhausted_client 1000 [acme_flat] in
   let w' := {| self := self w; solr := exhausted_client;
                trace := trace w ++ [SolrAdd (docs (self w)) true;
                                    LoggingError (ExcInfo MemoryError)] |} in
   sendDocsBulk w = (Raise MemoryError, w')
   ∧ commit w = (Raise MemoryError, w'))
  ∧ (let w := world_with offline_server 1000 [acme_flat] in
     let w' := {| self := self w; solr := offline_server;
                  trace := trace w ++
                    [SolrAdd (docs (self w)) true;
                     LoggingError (CouldNotInsert (docs (self w)))] |} in
     sendDocsBulk w = (Ok (), w') ∧ commit w = (Ok (), w')).
Proof.
  split.
  - refine (proj1 (proj2 (proj2 (proj2 (proj2
              (C6_flush_raises_unless_SolrError
                 (world_with exhausted_client 1000 [acme_flat]) MemoryError
                 exhausted_client _ _))))) _).
    + discriminate.
    + reflexivity.
    + reflexivity.
  - refine (proj2 (proj2 (proj2 (proj2 (proj2
              (C6_flush_raises_unless_SolrError
                 (world_with offline_server 1000 [acme_flat])
                 connection_refused offline_server _ _))))) _).
    + discriminate.
    + reflexivity.
    + reflexivity.
Defined.

(** C6 as stated fails: a server that cannot be reached is no rejection
    of the batch, yet the client reports it as a [SolrError]; the flush
    logs it and returns normally, and nothing reaches the caller. *)
Lemma C6_unreachable_server_counterexample :
  let w := world_with offline_server 1000 [acme_flat] in
  solr_add (docs (self w)) true (solr w)
  = (Raise connection_refused, solr w)
  ∧ (sendDocsBulk w).1 = Ok ()
  ∧ (commit w).1 = Ok ()
  ∧ ¬ ((sendDocsBulk w).1 = Raise connection_refused
       ∨ (commit w).1 = Raise connection_refused).
Proof.
  cbv zeta. split_and!; [reflexivity..|]. intros [Hr|Hr].
  - vm_compute in Hr. discriminate Hr.
  - vm_compute in Hr. discriminate Hr.
Qed.

Lemma C9_get_last_doc_absence_and_failures_witness :
  get_last_doc (world_with bare_server 1000 [])
  = (Ok None,
     {| self := manager_with 1000 []; solr := bare_server;
        trace := [] ++ [SolrSearch "*:*" (Some "_ts desc") 1] |})
  ∧ get_last_doc (world_with rejecting_server 1000 [])
    = (Ok None,
       {| self := manager_with 1000 []; solr := rejecting_server;
          trace := [] ++ [SolrSearch "*:*" (Some "_ts desc") 1] |})
  ∧ get_last_doc (world_with unreachable_server 1000 [])
    = (Raise ConnectionError,
       {| self := manager_with 1000 []; solr := unreachable_server;
          trace := [] ++ [SolrSearch "*:*" (Some "_ts desc") 1] |}).
Proof.
  split_and!.
  - apply (proj1 (C9_get_last_doc_absence_and_failures
                    (world_with bare_server 1000 []))
             {| results_docs := []; results_hits := 0 |} bare_server).
    reflexivity.
  - apply (proj1 (proj2 (C9_get_last_doc_absence_and_failures
                           (world_with rejecting_server 1000 [])))
             ValueError rejecting_server); reflexivity.
  - apply (proj2 (proj2 (C9_get_last_doc_absence_and_failures
                           (world_with unreachable_server 1000 [])))
             ConnectionError unreachable_server); reflexivity.
Defined.

Lemma C10_counter_equals_buffer_length_witness :
  counter_matches_buffer
    (self (run_call (call_upsert acme) (world_with bare_server 1 [])).2).
Proof.
  apply (proj1 (proj2 C10_counter_equals_buffer_length)
           (world_with bare_server 1 []) (call_upsert acme)).
  reflexivity.
Defined.
End examples.


(** * Further properties *)

(** ** [_parse_fields] and [build_fields] *)

Lemma parse_loop (items : list (string * pyval)) (acc : list string) :
  NoDup (acc ++ items.*1) →
  for_in (A := string * pyval) items
    (λ '(key, _) (field_list : list string),
       Ok (if bool_decide (key ∈ field_list) then field_list
           else field_list ++ [key]))
    acc
  = Ok (acc ++ items.*1).
Proof.
  revert acc. induction items as [|[k v] items IH]; intros acc Hnd.
  { cbn. by rewrite (right_id_L [] (++)). }
  cbn [for_in fmap list_fmap fst]. cbn.
  rewrite bool_decide_eq_false_2.
  - rewrite IH; rewrite <-(assoc_L (++)); done.
  - apply NoDup_app in Hnd as (_ & Hdis & _). intros Hk.
    apply (Hdis k Hk). cbn. left.
Qed.

(** X1: when the reply has a [schema] object with the asked group in it,
    [_parse_fields] returns the names the group declares: each name
    once, and no other. *)
Theorem parse_fields_lists_declared_names (result : dict) field_name
    (schema items : dict) :
  result !! "schema" = Some (PDict schema) →
  schema !! field_name = Some (PDict items) →
  ∃ names,
    _parse_fields (PDict result) field_name = Ok names
    ∧ NoDup names
    ∧ ∀ key, key ∈ names ↔ is_Some (items !! key).
Proof.
  intros Hs Hg. exists (map_to_list items).*1. split_and!.
  - unfold _parse_fields, get_default. cbn. rewrite Hs. cbn. rewrite Hg. cbn.
    by rewrite parse_loop by apply NoDup_fst_map_to_list.
  - apply NoDup_fst_map_to_list.
  - intros key. rewrite list_elem_of_fmap. split.
    + intros ([k v] & -> & Hin%elem_of_map_to_list). eauto.
    + intros [v Hv]. exists (key, v). split; [done|].
      by apply elem_of_map_to_list.
Qed.

Lemma parse_fields_lists_declared_names_witness :
  ∃ names,
    _parse_fields
      (PDict {[ "schema" := PDict {[ "fields" :=
                  PDict {[ "id" := PDict ∅; "name" := PDict ∅ ]} ]} ]})
      "fields" = Ok names
    ∧ NoDup names
    ∧ ∀ key, key ∈ names
             ↔ is_Some (({[ "id" := PDict ∅; "name" := PDict ∅ ]} : dict)
                          !! key).
Proof.
  apply (parse_fields_lists_declared_names _ "fields"
           {[ "fields" := PDict {[ "id" := PDict ∅; "name" := PDict ∅ ]} ]});
    reflexivity.
Defined.

(** X2: a reply without [schema], or a schema without the asked group,
    gives the empty list and no error; a reply, a schema or a group that
    is no object raises [AttributeError]. *)
Theorem parse_fields_missing_and_malformed :
  (∀ (result : dict) field_name,
     result !! "schema" = None →
     _parse_fields (PDict result) field_name = Ok [])
  ∧ (∀ (result schema : dict) field_name,
       result !! "schema" = Some (PDict schema) →
       schema !! field_name = None →
       _parse_fields (PDict result) field_name = Ok [])
  ∧ (∀ result field_name,
       as_dict result = Raise AttributeError →
       _parse_fields result field_name = Raise AttributeError)
  ∧ (∀ (result : dict) schema field_name,
       result !! "schema" = Some schema →
       as_dict schema = Raise AttributeError →
       _parse_fields (PDict result) field_name = Raise AttributeError)
  ∧ (∀ (result schema : dict) group field_name,
       result !! "schema" = Some (PDict schema) →
       schema !! field_name = Some group →
       as_dict group = Raise AttributeError →
       _parse_fields (PDict result) field_name = Raise AttributeError).
Proof.
  split_and!.
  - intros result field_name Hs. unfold _parse_fields, get_default. cbn.
    rewrite Hs. cbn. by rewrite lookup_empty.
  - intros result schema field_name Hs Hg.
    unfold _parse_fields, get_default. cbn. rewrite Hs. cbn. by rewrite Hg.
  - intros result field_name Hr. unfold _parse_fields, get_default.
    by rewrite Hr.
  - intros result schema field_name Hs Hsch.
    unfold _parse_fields, get_default. cbn. rewrite Hs. cbn. by rewrite Hsch.
  - intros result schema group field_name Hs Hg Hgr.
    unfold _parse_fields, get_default. cbn. rewrite Hs. cbn. rewrite Hg. cbn.
    by rewrite Hgr.
Qed.

Lemma parse_fields_missing_and_malformed_witness :
  _parse_fields (PDict ∅) "fields" = Ok []
  ∧ _parse_fields (PDict {[ "schema" := PDict ∅ ]}) "dynamicFields" = Ok []
  ∧ _parse_fields (PList []) "fields" = Raise AttributeError
  ∧ _parse_fields (PDict {[ "schema" := PStr "none" ]}) "fields"
    = Raise AttributeError
  ∧ _parse_fields
      (PDict {[ "schema" := PDict {[ "fields" := PList [] ]} ]}) "fields"
    = Raise AttributeError.
Proof.
  split_and!.
  - apply (proj1 parse_fields_missing_and_malformed). reflexivity.
  - apply (proj1 (proj2 parse_fields_missing_and_malformed) _ ∅);
      reflexivity.
  - apply (proj1 (proj2 (proj2 parse_fields_missing_and_malformed))).
    reflexivity.
  - apply (proj1 (proj2 (proj2 (proj2 parse_fields_missing_and_malformed)))
             _ (PStr "none")); reflexivity.
  - apply (proj2 (proj2 (proj2 (proj2 parse_fields_missing_and_malformed)))
             _ {[ "fields" := PList [] ]} (PList [])); reflexivity.
Defined.

(** ** More on [clean_doc] *)

Section more_clean_facts.
Context `{ReModule}.

(** What [clean_doc] returns under a schema, as a filter of the map. *)
Lemma clean_doc_filter self names doc r :
  field_list self = FieldsTuple names →
  clean_doc self doc = Ok r →
  r = filter (λ kv : string * pyval,
                is_kept (key_kept names (dynamic_field_list self) kv.1)) doc.
Proof.
  intros Hf. unfold clean_doc. rewrite Hf. cbn [falsy]. intros Hr.
  pose proof (for_items_defined _ _ _ _ _ Hr) as Hdef.
  rewrite for_items_filter in Hr; [|done|apply NoDup_fst_map_to_list].
  injection Hr as <-. rewrite (right_id_L ∅ (∪)).
  by rewrite map_filter_alt.
Qed.

Lemma clean_doc_lookup self names doc r key value :
  field_list self = FieldsTuple names →
  clean_doc self doc = Ok r →
  r !! key = Some value ↔
  doc !! key = Some value
  ∧ key_kept names (dynamic_field_list self) key = Ok true.
Proof.
  intros Hf Hr. rewrite (clean_doc_filter _ _ _ _ Hf Hr).
  rewrite map_lookup_filter_Some. cbn.
  destruct (key_kept names (dynamic_field_list self) key) as [[]|]; cbn.
  - tauto.
  - split; [tauto|]. by intros [_ ?].
  - split; [tauto|]. by intros [_ ?].
Qed.

(** A document all of whose keys pass the test comes back as it is. *)
Lemma clean_doc_all_kept self names doc :
  field_list self = FieldsTuple names →
  (∀ key, is_Some (doc !! key) →
          key_kept names (dynamic_field_list self) key = Ok true) →
  clean_doc self doc = Ok doc.
Proof.
  intros Hf Hall. unfold clean_doc. rewrite Hf. cbn [falsy].
  assert (Forall (λ kv : string * pyval,
                    key_kept names (dynamic_field_list self) kv.1 = Ok true)
            (map_to_list doc)) as Hin.
  { apply Forall_forall. intros [k v] Hkv%elem_of_map_to_list.
    apply Hall. eauto. }
  rewrite for_items_filter.
  - f_equal. rewrite (right_id_L ∅ (∪)). rewrite filter_Forall_id.
    + apply list_to_map_to_list.
    + eapply Forall_impl; [exact Hin|]. intros kv Hkv. by rewrite Hkv.
  - eapply Forall_impl; [exact Hin|]. intros kv Hkv. by exists true.
  - apply NoDup_fst_map_to_list.
Qed.

(** X3: under a schema, when [clean_doc] returns, the document it
    returns has exactly the fields of the input whose key is a declared
    name or is matched by a dynamic pattern, with their values. *)
Theorem clean_doc_keeps_exactly self names doc r :
  field_list self = FieldsTuple names →
  clean_doc self doc = Ok r →
  ∀ key value,
    r !! key = Some value ↔
    doc !! key = Some value
    ∧ key_kept names (dynamic_field_list self) key = Ok true.
Proof. intros Hf Hr key value. by apply clean_doc_lookup. Qed.

(** X4: whatever the state of the manager, the document [clean_doc]
    returns is part of the input: it adds no key and changes no value. *)
Theorem clean_doc_returns_subdocument self doc r :
  clean_doc self doc = Ok r → r ⊆ doc.
Proof.
  destruct (field_list self) as [|names] eqn:Hf.
  - unfold clean_doc. rewrite Hf. cbn. by intros [= ->].
  - intros Hr. rewrite (clean_doc_filter _ _ _ _ Hf Hr).
    apply map_filter_subseteq.
Qed.

(** X5: a document whose keys are all declared names comes back
    unchanged, whatever the dynamic patterns are: they are not looked at,
    so a pattern that could not be compiled does no harm. *)
Theorem clean_doc_declared_keys_unchanged self names doc :
  field_list self = FieldsTuple names →
  (∀ key, is_Some (doc !! key) → key ∈ names) →
  clean_doc self doc = Ok doc.
Proof.
  intros Hf Hall. apply (clean_doc_all_kept _ names); [done|].
  intros key Hkey. unfold key_kept.
  by rewrite bool_decide_eq_true_2 by auto.
Qed.

Lemma for_items_bad_pattern (names rest : list string)
    (items : list (string * pyval)) acc :
  (∃ kv, kv ∈ items ∧ kv.1 ∉ names) →
  for_in (A := string * pyval) items
    (λ '(key, value) (fixed_doc : dict),
       if bool_decide (key ∈ names)
       then Ok (<[key := value]> fixed_doc)
       else
         for_in ("" :: rest)
           (λ field (fixed_doc : dict),
              m ← dynamic_match field key;
              mret (if m : bool then <[key := value]> fixed_doc
                    else fixed_doc))
           fixed_doc)
    acc
  = Raise IndexError.
Proof.
  revert acc.
  induction items as [|[k v] items IH]; intros acc (kv & Hin & Hk).
  { by apply elem_of_nil in Hin. }
  cbn [for_in]. case_bool_decide as Hdec.
  - cbn. apply IH. exists kv. split; [|done].
    apply elem_of_cons in Hin as [->|Hin]; [done|done].
  - done.
Qed.

(** X6: when the first dynamic field of the schema has the empty name,
    [clean_doc] raises [IndexError] on every document that has a key
    which is no declared name. *)
Theorem clean_doc_empty_pattern_name self names rest doc :
  field_list self = FieldsTuple names →
  dynamic_field_list self = "" :: rest →
  (∃ key, is_Some (doc !! key) ∧ key ∉ names) →
  clean_doc self doc = Raise IndexError.
Proof.
  intros Hf Hd (key & [v Hv] & Hk). unfold clean_doc.
  rewrite Hf, Hd. cbn [falsy]. apply for_items_bad_pattern.
  exists (key, v). split; [by apply elem_of_map_to_list|done].
Qed.
End more_clean_facts.

(** ** More on [build_fields] and the buffer *)

Lemma batches_app tr1 tr2 : batches (tr1 ++ tr2) = batches tr1 ++ batches tr2.
Proof.
  induction tr1 as [|ev tr1 IH]; [done|].
  destruct ev; cbn; by rewrite ?IH.
Qed.

Lemma sent_app tr1 tr2 : sent (tr1 ++ tr2) = sent tr1 ++ sent tr2.
Proof. unfold sent. by rewrite batches_app, concat_app. Qed.

Section more_buffer_facts.
Context `{ReModule} {S : Type} `{SolrClient S}.
Implicit Types w : world S.

(** [clean_doc] reads the two schema attributes only. *)
Lemma clean_doc_same_schema (a b : DocManager) doc :
  field_list a = field_list b →
  dynamic_field_list a = dynamic_field_list b →
  clean_doc a doc = clean_doc b doc.
Proof. intros Hf Hd. unfold clean_doc. by rewrite Hf, Hd. Qed.

(** The outcome of [build_fields], by what the server answers. *)
Lemma build_fields_cases w :
  build_fields w =
    let '(reply, s') := solr_send_request "get" ADMIN_URL (solr w) in
    let tr := trace w ++ [SolrSendRequest "get" ADMIN_URL] in
    match reply with
    | Raise e => (Raise e, {| self := self w; solr := s'; trace := tr |})
    | Ok result =>
      match _parse_fields result "fields" with
      | Raise e => (Raise e, {| self := self w; solr := s'; trace := tr |})
      | Ok fields =>
        match _parse_fields result "dynamicFields" with
        | Raise e =>
          (Raise e,
           {| self := set_field_list (FieldsTuple fields) (self w);
              solr := s'; trace := tr |})
        | Ok dynamic_fields =>
          (Ok (),
           {| self := set_dynamic_field_list dynamic_fields
                        (set_field_list (FieldsTuple fields) (self w));
              solr := s'; trace := tr |})
        end
      end
    end.
Proof.
  unfold build_fields. run.
  destruct (solr_send_request _ _ _) as [[result|e] s']; [|done].
  destruct (_parse_fields result "fields") as [fields|e]; [|done].
  by destruct (_parse_fields result "dynamicFields").
Qed.

(** X7: once [build_fields] has returned, [field_list] is a tuple and the
    filter is at work: every field of a document [clean_doc] returns is
    a field of the input whose key is a declared name or is matched by
    a dynamic pattern.  No document passes unfiltered any more. *)
Theorem build_fields_activates_filter w :
  (build_fields w).1 = Ok () →
  let self' := self (build_fields w).2 in
  ∃ names,
    field_list self' = FieldsTuple names
    ∧ ∀ doc r, clean_doc self' doc = Ok r →
        ∀ key value,
          r !! key = Some value →
          doc !! key = Some value
          ∧ key_kept names (dynamic_field_list self') key = Ok true.
Proof.
  rewrite build_fields_cases.
  destruct (solr_send_request _ _ _) as [[result|e] s']; [|done].
  destruct (_parse_fields result "fields") as [fields|e]; [|done].
  destruct (_parse_fields result "dynamicFields") as [dyn|e]; [|done].
  intros _. cbv zeta. cbn [snd self]. exists fields. split; [done|].
  intros doc r Hr key value Hk.
  eapply clean_doc_lookup in Hr; [|reflexivity]. by apply Hr.
Qed.

(** X8: when the schema request raises, or the reply has no readable
    [fields] group, [build_fields] raises and the manager keeps the
    schema it had.  When [fields] is read and [dynamicFields] is not,
    it raises after [field_list] was replaced: the new names are then
    used with the old dynamic patterns. *)
Theorem build_fields_failures w :
  (∀ e s',
     solr_send_request "get" ADMIN_URL (solr w) = (Raise e, s') →
     (build_fields w).1 = Raise e ∧ self (build_fields w).2 = self w)
  ∧ (∀ result e s',
       solr_send_request "get" ADMIN_URL (solr w) = (Ok result, s') →
       _parse_fields result "fields" = Raise e →
       (build_fields w).1 = Raise e ∧ self (build_fields w).2 = self w)
  ∧ (∀ result fields e s',
       solr_send_request "get" ADMIN_URL (solr w) = (Ok result, s') →
       _parse_fields result "fields" = Ok fields →
       _parse_fields result "dynamicFields" = Raise e →
       (build_fields w).1 = Raise e
       ∧ field_list (self (build_fields w).2) = FieldsTuple fields
       ∧ dynamic_field_list (self (build_fields w).2)
         = dynamic_field_list (self w)).
Proof.
  split_and!.
  - intros e s' Hreq. by rewrite build_fields_cases, Hreq.
  - intros result e s' Hreq Hf. by rewrite build_fields_cases, Hreq, Hf.
  - intros result fields e s' Hreq Hf Hd.
    by rewrite build_fields_cases, Hreq, Hf, Hd.
Qed.

(** X9: on an empty buffer [sendDocsBulk] and [commit] do nothing: no
    request, no log record, no change. *)
Theorem flush_of_empty_buffer_does_nothing w :
  docs (self w) = [] →
  sendDocsBulk w = (Ok (), w) ∧ commit w = (Ok (), w).
Proof.
  intros Hd. split; [by apply sendDocsBulk_empty|].
  rewrite commit_unfold, bool_decide_eq_false_2; [done|].
  rewrite Hd. by intros [].
Qed.

(** X10: when the transformation or the filter raises, [upsert] raises
    the same exception and nothing else happens: nothing is buffered or
    counted, nothing is sent.  A document without [_id] is such a case. *)
Theorem upsert_failure_buffers_nothing w doc :
  (∀ e, transform_doc doc ≫= clean_doc (self w) = Raise e →
        upsert doc w = (Raise e, w))
  ∧ (doc !! "_id" = None → upsert doc w = (Raise (KeyError "_id"), w)).
Proof.
  split; [intros e; apply upsert_raises|].
  intros Hid. apply upsert_raises.
  by rewrite transform_doc_cases, Hid.
Qed.

(** One [upsert] against a server that accepts: what was sent and what
    waits, together, grow by the document. *)
Lemma upsert_accepted_step w doc c :
  (∀ ds s, (solr_add ds true s).1 = Ok ()) →
  transform_doc doc ≫= clean_doc (self w) = Ok c →
  let w' := (upsert doc w).2 in
  sent (trace w') ++ docs (self w') = sent (trace w) ++ docs (self w) ++ [c]
  ∧ field_list (self w') = field_list (self w)
  ∧ dynamic_field_list (self w') = dynamic_field_list (self w)
  ∧ commit_bulk_max (self w') = commit_bulk_max (self w)
  ∧ (counter_matches_buffer (self w) →
     counter_matches_buffer (self w')
     ∧ (Z.of_nat (length (docs (self w))) < commit_bulk_max (self w) →
        Z.of_nat (length (docs (self w'))) < commit_bulk_max (self w))).
Proof.
  intros Hacc Hdoc. cbv zeta. rewrite (upsert_unfold _ _ _ Hdoc).
  case_bool_decide as Hmax.
  - rewrite sendDocsBulk_nonempty by (cbn; by destruct (docs (self w))).
    pose proof (Hacc (docs (self (buffered c w))) (solr (buffered c w)))
      as Hadd.
    destruct (solr_add _ _ _) as [[[]|e] s']; [|done].
    cbn [snd self trace docs field_list dynamic_field_list commit_bulk_max
         commit_bulk_num set_docs set_commit_bulk_num buffered].
    rewrite sent_app. unfold sent at 2. cbn [batches concat].
    rewrite !(right_id_L [] (++)). split_and!; [done..|].
    intros Hc. split; [by unfold counter_matches_buffer|].
    cbn [length]. lia.
  - cbn. split_and!; [done..|].
    intros Hc. split; [by apply (buffered_counter c w)|].
    unfold counter_matches_buffer in Hc.
    rewrite length_app. cbn. lia.
Qed.

Lemma run_calls_app cs1 cs2 w :
  run_calls (cs1 ++ cs2) w = run_calls cs2 (run_calls cs1 w).
Proof.
  revert w. induction cs1 as [|c cs1 IH]; intros w; [done|]. apply IH.
Qed.

Lemma upserts_accepted w ds cs :
  (∀ ds s, (solr_add ds true s).1 = Ok ()) →
  Forall2 (λ d c, transform_doc d ≫= clean_doc (self w) = Ok c) ds cs →
  let w' := run_calls (call_upsert <$> ds) w in
  sent (trace w') ++ docs (self w') = sent (trace w) ++ docs (self w) ++ cs
  ∧ (counter_matches_buffer (self w) →
     counter_matches_buffer (self w')
     ∧ (Z.of_nat (length (docs (self w))) < commit_bulk_max (self w) →
        Z.of_nat (length (docs (self w'))) < commit_bulk_max (self w))).
Proof.
  intros Hacc Hall. cbv zeta. revert w Hall.
  induction ds as [|d ds IH] in cs |- *; intros w Hall.
  { apply Forall2_nil_inv_l in Hall as ->. cbn.
    by rewrite (right_id_L [] (++)). }
  apply Forall2_cons_inv_l in Hall as (c & cs' & Hc & Hall & ->).
  cbn [fmap list_fmap run_calls run_call].
  destruct (upsert_accepted_step w d c Hacc Hc) as (Hs & Hf & Hd & Hm & Hinv).
  destruct (IH cs' (upsert d w).2) as [Hs' Hinv'].
  { eapply Forall2_impl; [exact Hall|]. intros d' c' Hd'. cbn beta in *.
    destruct (transform_doc d') as [t|e]; [|done].
    cbn [mbind outcome_bind] in *.
    by rewrite (clean_doc_same_schema _ (self w)). }
  split.
  - rewrite Hs', (assoc_L (++) (sent _)), Hs.
    by rewrite <-!(assoc_L (++)).
  - intros Hcm. destruct (Hinv Hcm) as [Hcm1 Hlt1].
    destruct (Hinv' Hcm1) as [Hcm2 Hlt2]. split; [done|].
    intros Hlt. rewrite Hm in Hlt2. auto.
Qed.

(** X11: against a server that accepts every batch, [upsert] calls
    followed by [commit] lose and repeat nothing: the documents sent,
    over all requests and in order, are those sent before, those that
    were waiting and the new ones, and the buffer is empty.  This holds
    for every threshold. *)
Theorem accepted_upserts_lose_nothing w ds cs :
  (∀ ds s, (solr_add ds true s).1 = Ok ()) →
  Forall2 (λ d c, transform_doc d ≫= clean_doc (self w) = Ok c) ds cs →
  let w' := run_calls ((call_upsert <$> ds) ++ [call_commit]) w in
  sent (trace w') = sent (trace w) ++ docs (self w) ++ cs
  ∧ docs (self w') = [].
Proof.
  intros Hacc Hall. cbv zeta. rewrite run_calls_app.
  destruct (upserts_accepted w ds cs Hacc Hall) as [Hs _].
  set (w1 := run_calls (call_upsert <$> ds) w) in *.
  cbn [run_calls run_call]. rewrite commit_unfold.
  case_bool_decide as Hd.
  - rewrite sendDocsBulk_nonempty by done.
    pose proof (Hacc (docs (self w1)) (solr w1)) as Hadd.
    destruct (solr_add _ _ _) as [[[]|e] s']; [|done].
    cbn [snd self trace docs set_docs set_commit_bulk_num].
    rewrite sent_app. unfold sent at 2. cbn [batches concat].
    by rewrite (right_id_L [] (++)).
  - cbn [snd]. rewrite Hd in Hs |- *.
    by rewrite (right_id_L [] (++)) in Hs.
Qed.

(** X12: against a server that accepts every batch, a buffer that is
    shorter than the threshold and agrees with its counter stays
    shorter than the threshold after any number of [upsert] calls. *)
Theorem accepted_upserts_keep_buffer_below_threshold w ds cs :
  (∀ ds s, (solr_add ds true s).1 = Ok ()) →
  Forall2 (λ d c, transform_doc d ≫= clean_doc (self w) = Ok c) ds cs →
  counter_matches_buffer (self w) →
  Z.of_nat (length (docs (self w))) < commit_bulk_max (self w) →
  Z.of_nat (length (docs (self (run_calls (call_upsert <$> ds) w))))
  < commit_bulk_max (self w).
Proof.
  intros Hacc Hall Hcm Hlt.
  destruct (upserts_accepted w ds cs Hacc Hall) as [_ Hinv].
  by apply Hinv.
Qed.

(** One [upsert] at the threshold against a server that rejects. *)
Lemma upsert_rejected_step w doc c :
  (∀ ds s, ∃ e, (solr_add ds true s).1 = Raise e
                ∧ isinstance e "SolrError" = true) →
  transform_doc doc ≫= clean_doc (self w) = Ok c →
  commit_bulk_num (self w) + 1 >= commit_bulk_max (self w) →
  let w' := (upsert doc w).2 in
  (upsert doc w).1 = Ok ()
  ∧ docs (self w') = docs (self w) ++ [c]
  ∧ commit_bulk_num (self w') = commit_bulk_num (self w) + 1
  ∧ batches (trace w') = batches (trace w) ++ [docs (self w) ++ [c]]
  ∧ field_list (self w') = field_list (self w)
  ∧ dynamic_field_list (self w') = dynamic_field_list (self w)
  ∧ commit_bulk_max (self w') = commit_bulk_max (self w).
Proof.
  intros Hrej Hdoc Hmax. cbv zeta. rewrite (upsert_unfold _ _ _ Hdoc).
  rewrite bool_decide_eq_true_2 by done.
  rewrite sendDocsBulk_nonempty by (cbn; by destruct (docs (self w))).
  destruct (Hrej (docs (self (buffered c w))) (solr (buffered c w)))
    as (e & Hadd & He).
  destruct (solr_add _ _ _) as [[[]|e'] s']; [done|].
  cbn in Hadd. injection Hadd as ->. rewrite He.
  cbn [fst snd self trace docs field_list dynamic_field_list commit_bulk_max
       commit_bulk_num set_docs set_commit_bulk_num buffered].
  split_and!; [done..| |done|done|done].
  rewrite batches_app. cbn [batches]. done.
Qed.

(** X13: against a server that rejects every batch with a [SolrError],
    once the counter is at the threshold every [upsert] returns
    normally, keeps its document in the buffer and sends the whole
    buffer again: the n-th call sends what was waiting and the first n
    new documents. *)
Theorem rejected_upserts_resend_growing_buffer w ds cs :
  (∀ ds s, ∃ e, (solr_add ds true s).1 = Raise e
                ∧ isinstance e "SolrError" = true) →
  Forall2 (λ d c, transform_doc d ≫= clean_doc (self w) = Ok c) ds cs →
  commit_bulk_num (self w) + 1 >= commit_bulk_max (self w) →
  let w' := run_calls (call_upsert <$> ds) w in
  (∀ n d, ds !! n = Some d →
     (upsert d (run_calls (call_upsert <$> take n ds) w)).1 = Ok ())
  ∧ docs (self w') = docs (self w) ++ cs
  ∧ batches (trace w')
    = batches (trace w)
      ++ ((λ n, docs (self w) ++ take n cs) <$> seq 1 (length cs)).
Proof.
  intros Hrej Hall Hmax. cbv zeta. revert w Hall Hmax.
  induction ds as [|d ds IH] in cs |- *; intros w Hall Hmax.
  { apply Forall2_nil_inv_l in Hall as ->. cbn.
    by rewrite !(right_id_L [] (++)). }
  apply Forall2_cons_inv_l in Hall as (c & cs' & Hc & Hall & ->).
  cbn [fmap list_fmap run_calls run_call].
  destruct (upsert_rejected_step w d c Hrej Hc Hmax)
    as (Hok & Hd & Hn & Hb & Hf & Hdy & Hm).
  destruct (IH cs' (upsert d w).2) as (Hok' & Hd' & Hb').
  { eapply Forall2_impl; [exact Hall|]. intros d' c' Hd''. cbn beta in *.
    destruct (transform_doc d') as [t|e]; [|done].
    cbn [mbind outcome_bind] in *.
    by rewrite (clean_doc_same_schema _ (self w)). }
  { rewrite Hn, Hm. lia. }
  rewrite Hd', Hb', Hd, Hb. split_and!.
  - intros [|n] d'.
    + intros [= <-]. exact Hok.
    + intros Hn'. apply (Hok' n d' Hn').
  - by rewrite <-(assoc_L (++)).
  - rewrite <-(assoc_L (++)). f_equal. cbn [length seq fmap list_fmap take].
    cbn. f_equal. rewrite <-(fmap_S_seq 1), <-list_fmap_compose.
    apply list_fmap_ext. intros i n _. cbn. by rewrite <-(assoc_L (++)).
Qed.

(** X14: [remove] does not reach the buffer.  A document that is
    upserted, removed and then committed is deleted first and added
    afterwards: the delete request goes out before the batch that holds
    the document. *)
Theorem remove_does_not_cancel_buffered_upsert w doc c id s1 s2 :
  transform_doc doc ≫= clean_doc (self w) = Ok c →
  commit_bulk_num (self w) + 1 < commit_bulk_max (self w) →
  doc !! unique_key (self w) = Some id →
  solr_delete_id id true (solr w) = (Ok (), s1) →
  solr_add (docs (self w) ++ [c]) true s1 = (Ok (), s2) →
  ∃ w', (upsert doc;; remove doc;; commit) w = (Ok (), w')
    ∧ trace w' = trace w ++
        [SolrDeleteId id true; SolrAdd (docs (self w) ++ [c]) true;
         LoggingInfo (BulkAdd (commit_bulk_num (self w) + 1))]
    ∧ docs (self w') = [].
Proof.
  intros Hdoc Hlt Hid Hdel Hadd. cbv [mbind M_bind].
  rewrite (upsert_unfold _ _ _ Hdoc), bool_decide_eq_false_2 by lia.
  unfold remove. run. unfold getitem.
  cbn [buffered self solr trace unique_key set_docs set_commit_bulk_num].
  rewrite Hid, Hdel. rewrite commit_unfold.
  rewrite bool_decide_eq_true_2 by (cbn; by destruct (docs (self w))).
  rewrite sendDocsBulk_nonempty by (cbn; by destruct (docs (self w))).
  cbn [self solr trace docs commit_bulk_num set_docs set_commit_bulk_num].
  rewrite Hadd. eexists. split; [done|]. cbn.
  by rewrite <-(assoc_L (++)).
Qed.

(** X15: [remove] of a document without the unique key raises the
    [KeyError] of that key and sends nothing.  With the key it sends one
    delete with commit, ends as that request ends, and leaves the
    manager, buffer and counter included, as it was. *)
Theorem remove_bypasses_buffer w doc :
  (doc !! unique_key (self w) = None →
   remove doc w = (Raise (KeyError (unique_key (self w))), w))
  ∧ (∀ id, doc !! unique_key (self w) = Some id →
       self (remove doc w).2 = self w
       ∧ trace (remove doc w).2 = trace w ++ [SolrDeleteId id true]
       ∧ (remove doc w).1 = (solr_delete_id id true (solr w)).1).
Proof.
  split.
  - intros Hid. unfold remove. run. unfold getitem. by rewrite Hid.
  - intros id Hid. unfold remove. run. unfold getitem. rewrite Hid.
    by destruct (solr_delete_id _ _ _).
Qed.

(** X16: [run_auto_commit] never sends a batch and never touches the
    buffer.  After a commit that returned it starts the timer again
    exactly when [auto_commit] is set; after a commit that raised it
    raises and starts no timer; and after [stop] it commits once more
    and starts no timer. *)
Theorem auto_commit_never_flushes_and_stops w :
  (docs (self (run_auto_commit w).2) = docs (self w)
   ∧ batches (trace (run_auto_commit w).2) = batches (trace w))
  ∧ (∀ s', solr_commit (solr w) = (Ok (), s') →
       run_auto_commit w
       = (Ok (),
          {| self := self w; solr := s';
             trace := trace w ++ SolrCommit ::
               (if auto_commit (self w) then [TimerStart 1] else []) |}))
  ∧ (∀ e s', solr_commit (solr w) = (Raise e, s') →
       run_auto_commit w
       = (Raise e,
          {| self := self w; solr := s'; trace := trace w ++ [SolrCommit] |}))
  ∧ (∀ s', solr_commit (solr w) = (Ok (), s') →
       trace ((stop;; run_auto_commit) w).2 = trace w ++ [SolrCommit]).
Proof.
  split_and!.
  - unfold run_auto_commit. run.
    destruct (solr_commit _) as [[[]|e] s']; cbn; [|done].
    by destruct (auto_commit (self w)).
  - unfold run_auto_commit. run.
    destruct (solr_commit _) as [[[]|e] s']; cbn.
    + destruct (auto_commit (self w)); cbn;
        rewrite !batches_app; cbn; by rewrite !(right_id_L [] (++)).
    + rewrite batches_app. cbn. by rewrite (right_id_L [] (++)).
  - intros s' Hc. unfold run_auto_commit. run. rewrite Hc. cbn.
    destruct (auto_commit (self w)); [|done]. cbn.
    by rewrite <-(assoc_L (++)).
  - intros e s' Hc. unfold run_auto_commit. run. by rewrite Hc.
  - intros s' Hc. unfold stop, run_auto_commit. run. cbn.
    by rewrite Hc.
Qed.
End more_buffer_facts.

(** ** More on [transform_doc] *)

(** [transform_doc] through [value_data]. *)
Lemma transform_doc_by_data doc :
  transform_doc doc =
    match doc !! "_id" with
    | None => Raise (KeyError "_id")
    | Some _id =>
      match value_data doc with
      | Raise e => Raise e
      | Ok (PDict data) =>
        match data !! "address" with
        | None => Ok (leaves data (ids _id))
        | Some (PDict address) =>
          Ok (leaves data (address_leaves address (ids _id)))
        | Some _ => Raise AttributeError
        end
      | Ok _ => Raise AttributeError
      end
    end.
Proof.
  rewrite transform_doc_cases, value_data_eq.
  destruct (doc !! "_id"); [|done].
  destruct (doc !! "value") as [[| | | | |value]|]; try done.
  by destruct (value !! "data") as [[| | | | |data]|].
Qed.

(** Ends the walk over the fields of a flat document when the goal holds
    for every name written. *)
Ltac on_each_key k :=
  unfold leaves, address_leaves, ids;
  repeat match goal with
  | |- context [put ?d _ _ !! k] =>
    destruct (decide (d = k)) as [<-|];
    [ intros _; reflexivity | rewrite lookup_put_ne by done ]
  | |- context [<[?d := _]> _ !! k] =>
    destruct (decide (d = k)) as [<-|];
    [ intros _; reflexivity | rewrite lookup_insert_ne by done ]
  end;
  rewrite lookup_empty; by intros [? ?].

(** X17: every key [transform_doc] writes is made of word characters, so
    the filter meets no other keys when [upsert] runs it on the result. *)
Theorem transform_doc_writes_word_keys doc new_doc :
  transform_doc doc = Ok new_doc →
  ∀ key, is_Some (new_doc !! key) → all_word key = true.
Proof.
  rewrite transform_doc_cases.
  destruct (doc !! "_id") as [_id|]; [|done].
  destruct (doc !! "value") as [[| | | | |value]|]; try done.
  destruct (value !! "data") as [[| | | | |data]|]; try done.
  destruct (data !! "address") as [[| | | | |address]|]; try done;
    intros [= <-] key; on_each_key key.
Qed.

(** X18: [transform_doc] reads [_id] and [value.data] and nothing else:
    two documents that agree on them have the same outcome, the same
    exception included. *)
Theorem transform_doc_reads_id_and_data_only doc doc' :
  doc !! "_id" = doc' !! "_id" →
  value_data doc = value_data doc' →
  transform_doc doc = transform_doc doc'.
Proof. intros Hid Hdata. by rewrite !transform_doc_by_data, Hid, Hdata. Qed.

(** X19: on a document with [_id], a [value] that is no object raises
    [TypeError]; a [value.data] that is no object, or a
    [value.data.address] that is no object, raises [AttributeError]. *)
Theorem transform_doc_wrong_types doc :
  is_Some (doc !! "_id") →
  (∀ v, doc !! "value" = Some v → (∀ d, v ≠ PDict d) →
        transform_doc doc = Raise TypeError)
  ∧ (∀ (value : dict) v, doc !! "value" = Some (PDict value) →
       value !! "data" = Some v → (∀ d, v ≠ PDict d) →
       transform_doc doc = Raise AttributeError)
  ∧ (∀ (value data : dict) v, doc !! "value" = Some (PDict value) →
       value !! "data" = Some (PDict data) →
       data !! "address" = Some v → (∀ d, v ≠ PDict d) →
       transform_doc doc = Raise AttributeError).
Proof.
  intros [_id Hid]. split_and!.
  - intros v Hv Hnd. rewrite transform_doc_cases, Hid, Hv.
    destruct v; try done. by destruct (Hnd d).
  - intros value v Hv Hd Hnd. rewrite transform_doc_cases, Hid, Hv, Hd.
    destruct v; try done. by destruct (Hnd d).
  - intros value data v Hv Hd Ha Hnd.
    rewrite transform_doc_cases, Hid, Hv, Hd, Ha.
    destruct v; try done. by destruct (Hnd d).
Qed.

(** ** [transform_doc_old] *)

Lemma for_in_app {A B} (body : A → B → outcome B) l1 l2 acc :
  for_in (l1 ++ l2) body acc = acc' ← for_in l1 body acc; for_in l2 body acc'.
Proof.
  revert acc. induction l1 as [|x l1 IH]; intros acc; [done|].
  cbn. destruct (body x acc); [apply IH|done].
Qed.

Section old_facts.
Import re re_facts.
Local Arguments copy_if_present : simpl never.

(** Every way [transform_doc_old] can end before its loop. *)
Lemma transform_doc_old_cases doc :
  transform_doc_old doc =
    match doc !! "_id" with
    | None => Raise (KeyError "_id")
    | Some _id =>
      match doc !! "GlossaryId" with
      | None => Raise (KeyError "GlossaryId")
      | Some glossary_id =>
        match doc !! "SourceTerm" with
        | None => Raise (KeyError "SourceTerm")
        | Some source_term =>
          match doc !! "TargetTerms" with
          | None => Raise (KeyError "TargetTerms")
          | Some target_terms =>
            translations ← iterate target_terms;
            for_in translations add_translation
              (glossary_part doc _id glossary_id source_term)
          end
        end
      end
    end.
Proof.
  unfold transform_doc_old, getitem.
  destruct (doc !! "_id") as [_id|]; cbn; [|done].
  destruct (doc !! "GlossaryId") as [g|]; cbn; [|done].
  destruct (doc !! "SourceTerm") as [s|]; cbn; [|done].
  repeat (rewrite copy_if_present_dict; cbn).
  by destruct (doc !! "TargetTerms").
Qed.

Lemma add_translation_inv translation new_doc r :
  add_translation translation new_doc = Ok r →
  ∃ lang_code terms term,
    subscript translation "LangCode" = Ok (PStr lang_code)
    ∧ subscript translation "Terms" = Ok terms
    ∧ first_item terms = Ok term
    ∧ r = <[target_term_name lang_code := term]> new_doc.
Proof.
  unfold add_translation.
  destruct (subscript translation "LangCode") as [[| | |lang| |]|]; try done.
  cbn. destruct (subscript translation "Terms") as [terms|]; [|done].
  cbn. destruct (first_item terms) as [term|] eqn:Hterm; [|done].
  cbn. intros [= <-]. exists lang, terms, term. by split_and!.
Qed.

Lemma lower_char_facts c :
  lower_char (lower_char c) = lower_char c
  ∧ (is_alnum c = true → is_word (lower_char c) = true).
Proof.
  destruct c as [[] [] [] [] [] [] [] []]; vm_compute; intuition congruence.
Qed.

Lemma lower_idemp s : lower (lower s) = lower s.
Proof.
  induction s as [|c s IH]; [done|]. cbn.
  by rewrite IH, (proj1 (lower_char_facts c)).
Qed.

Lemma lower_app a b : lower (a +:+ b) = lower a +:+ lower b.
Proof.
  induction a as [|c a IH]; [done|].
  change (String (lower_char c) (lower (a +:+ b))
          = String (lower_char c) (lower a +:+ lower b)).
  by rewrite IH.
Qed.

Lemma all_word_lower_sub in_run s :
  all_word (lower (sub_non_alnum in_run s)) = true.
Proof.
  revert in_run. induction s as [|c s IH]; intros in_run; [done|].
  cbn. destruct (is_alnum c) eqn:Hc.
  - cbn. by rewrite (proj2 (lower_char_facts c) Hc), IH.
  - destruct in_run; [apply IH|]. cbn. apply IH.
Qed.

(** The underscore of [_target_term] may belong to a run that started
    in the language code; the suffix is there all the same. *)
Lemma sub_keeps_suffix lang_code in_run :
  ∃ w, (if in_run : bool then "_" else "")
       +:+ sub_non_alnum in_run (lang_code +:+ "_target_term")
       = w +:+ "_target_term".
Proof.
  revert in_run. induction lang_code as [|c l IH]; intros in_run.
  { destruct in_run; by exists "". }
  change (String c l +:+ "_target_term")
    with (String c (l +:+ "_target_term")).
  cbn [sub_non_alnum]. destruct (is_alnum c).
  - destruct (IH false) as [w Hw].
    change (sub_non_alnum false (l +:+ "_target_term")
            = w +:+ "_target_term") in Hw.
    exists ((if in_run then "_" else "") +:+ String c w).
    rewrite Hw. by destruct in_run.
  - destruct (IH true) as [w Hw]. exists w. by destruct in_run.
Qed.

Lemma target_term_name_suffix lang_code :
  ∃ w, target_term_name lang_code = w +:+ "_target_term".
Proof.
  destruct (sub_keeps_suffix lang_code false) as [w Hw].
  change (sub_non_alnum false (lang_code +:+ "_target_term")
          = w +:+ "_target_term") in Hw.
  exists (lower w). unfold target_term_name. by rewrite Hw, lower_app.
Qed.

(** X20: whatever the language code, the field name made from it has
    word characters only, none of them upper case, and ends with
    [_target_term]. *)
Theorem target_term_names_are_field_names lang_code :
  all_word (target_term_name lang_code) = true
  ∧ lower (target_term_name lang_code) = target_term_name lang_code
  ∧ ∃ w, target_term_name lang_code = w +:+ "_target_term".
Proof.
  split_and!.
  - apply all_word_lower_sub.
  - apply lower_idemp.
  - apply target_term_name_suffix.
Qed.

Lemma target_term_name_fresh lang_code :
  target_term_name lang_code ∉ glossary_fields.
Proof.
  pose proof (lower_idemp (sub_non_alnum false
                             (lang_code +:+ "_target_term"))) as Hlow.
  fold (target_term_name lang_code) in Hlow.
  destruct (target_term_name_suffix lang_code) as [w Hw].
  intros Hin. unfold glossary_fields in Hin.
  repeat (apply elem_of_cons in Hin as [Heq|Hin]);
    [| rewrite Heq in Hlow; by vm_compute in Hlow ..
     | by apply elem_of_nil in Hin].
  rewrite Heq in Hw. apply (f_equal list_ascii_of_string) in Hw.
  rewrite list_ascii_of_string_app in Hw.
  apply (f_equal length) in Hw. rewrite length_app in Hw. cbn in Hw. lia.
Qed.

(** The loop writes under translation names only. *)
Lemma translations_keep_glossary translations new_doc r :
  for_in translations add_translation new_doc = Ok r →
  (∀ field, field ∈ glossary_fields → r !! field = new_doc !! field)
  ∧ (∀ key, is_Some (r !! key) →
       is_Some (new_doc !! key)
       ∨ ∃ lang_code, key = target_term_name lang_code).
Proof.
  revert new_doc.
  induction translations as [|t ts IH]; intros new_doc.
  { intros [= <-]. eauto. }
  cbn [for_in].
  destruct (add_translation t new_doc) as [d|] eqn:Ht; [|done].
  cbn. intros [Hg Hk]%IH.
  apply add_translation_inv in Ht as (lang & terms & term & _ & _ & _ & ->).
  split.
  - intros field Hf. rewrite Hg by done. apply lookup_insert_ne.
    intros Heq. apply (target_term_name_fresh lang). by rewrite Heq.
  - intros key [Hin|Hname]%Hk; [|by right].
    destruct (decide (target_term_name lang = key)) as [<-|Hne]; [eauto|].
    rewrite lookup_insert_ne in Hin by done. by left.
Qed.

Lemma glossary_part_lookup doc _id g s field :
  doc !! "_id" = Some _id → doc !! "GlossaryId" = Some g →
  doc !! "SourceTerm" = Some s →
  field ∈ glossary_fields →
  glossary_part doc _id g s !! field = doc !! field.
Proof.
  intros Hid Hg Hs Hin. unfold glossary_fields in Hin.
  unfold glossary_part.
  repeat (apply elem_of_cons in Hin as [->|Hin]);
    [..|by apply elem_of_nil in Hin];
    repeat first
      [ rewrite lookup_put_ne by done
      | rewrite lookup_insert_ne by done
      | rewrite lookup_put_eq
      | rewrite lookup_insert_eq
      | rewrite lookup_empty ];
    rewrite ?Hid, ?Hg, ?Hs; try done;
    match goal with |- from_option Some None ?x = _ => by destruct x end.
Qed.

Lemma glossary_part_keys doc _id g s key :
  is_Some (glossary_part doc _id g s !! key) → key ∈ glossary_fields.
Proof.
  unfold glossary_part, glossary_fields.
  repeat match goal with
  | |- context [put ?d _ _ !! key] =>
    destruct (decide (d = key)) as [<-|];
    [ intros _; rewrite !elem_of_cons; tauto
    | rewrite lookup_put_ne by done ]
  | |- context [<[?d := _]> _ !! key] =>
    destruct (decide (d = key)) as [<-|];
    [ intros _; rewrite !elem_of_cons; tauto
    | rewrite lookup_insert_ne by done ]
  end.
  rewrite lookup_empty. by intros [? ?].
Qed.

(** What a document [transform_doc_old] returns holds. *)
Lemma transform_doc_old_shape doc new_doc :
  transform_doc_old doc = Ok new_doc →
  (∀ field, field ∈ glossary_fields → new_doc !! field = doc !! field)
  ∧ ∀ key, is_Some (new_doc !! key) →
      key ∈ glossary_fields ∨ ∃ lang_code, key = target_term_name lang_code.
Proof.
  rewrite transform_doc_old_cases.
  destruct (doc !! "_id") as [_id|] eqn:Hid; [|done].
  destruct (doc !! "GlossaryId") as [g|] eqn:Hg; [|done].
  destruct (doc !! "SourceTerm") as [s|] eqn:Hs; [|done].
  destruct (doc !! "TargetTerms") as [tt|]; [|done].
  destruct (iterate tt) as [ts|]; [|done]. cbn.
  intros [Hf Hk]%translations_keep_glossary. split.
  - intros field Hin. rewrite Hf by done.
    by apply glossary_part_lookup.
  - intros key [Hin|?]%Hk; [|by right]. left.
    by apply glossary_part_keys in Hin.
Qed.

(** X21: [transform_doc_old] needs [_id], [GlossaryId], [SourceTerm] and
    [TargetTerms], and raises the [KeyError] of the first one that is
    missing.  When it returns, the seven glossary fields are in the
    output as they are in the input (absent when absent there): no
    translation overwrites them; and every other key of the output is
    the field name of a language code. *)
Theorem transform_doc_old_required_and_verbatim doc :
  (doc !! "_id" = None → transform_doc_old doc = Raise (KeyError "_id"))
  ∧ (is_Some (doc !! "_id") → doc !! "GlossaryId" = None →
     transform_doc_old doc = Raise (KeyError "GlossaryId"))
  ∧ (is_Some (doc !! "_id") → is_Some (doc !! "GlossaryId") →
     doc !! "SourceTerm" = None →
     transform_doc_old doc = Raise (KeyError "SourceTerm"))
  ∧ (is_Some (doc !! "_id") → is_Some (doc !! "GlossaryId") →
     is_Some (doc !! "SourceTerm") → doc !! "TargetTerms" = None →
     transform_doc_old doc = Raise (KeyError "TargetTerms"))
  ∧ (∀ new_doc, transform_doc_old doc = Ok new_doc →
       (∀ field, field ∈ glossary_fields → new_doc !! field = doc !! field)
       ∧ ∀ key, is_Some (new_doc !! key) →
           key ∈ glossary_fields
           ∨ ∃ lang_code, key = target_term_name lang_code).
Proof.
  split_and!; [rewrite transform_doc_old_cases..|].
  - by intros ->.
  - by intros [? ->] ->.
  - by intros [? ->] [? ->] ->.
  - by intros [? ->] [? ->] [? ->] ->.
  - apply transform_doc_old_shape.
Qed.

(** X22: when two translations give the same field name, the later one
    is the one in the output: the field made from the language code of
    the last translation holds the first term of that translation. *)
Theorem transform_doc_old_last_translation_wins doc new_doc
    translations translation lang_code terms term :
  doc !! "TargetTerms" = Some (PList (translations ++ [translation])) →
  subscript translation "LangCode" = Ok (PStr lang_code) →
  subscript translation "Terms" = Ok terms →
  first_item terms = Ok term →
  transform_doc_old doc = Ok new_doc →
  new_doc !! target_term_name lang_code = Some term.
Proof.
  intros Htt Hl Hts Ht. rewrite transform_doc_old_cases, Htt.
  destruct (doc !! "_id") as [_id|]; [|done].
  destruct (doc !! "GlossaryId") as [g|]; [|done].
  destruct (doc !! "SourceTerm") as [s|]; [|done].
  cbn. rewrite for_in_app.
  destruct (for_in translations _ _) as [d|]; [|done]. cbn.
  unfold add_translation. rewrite Hl. cbn. rewrite Hts. cbn. rewrite Ht.
  cbn. intros [= <-]. apply lookup_insert_eq.
Qed.

Local Existing Instance py_re.

(** X23: a schema that declares the seven glossary fields and the one
    dynamic field [*_target_term] lets every document of
    [transform_doc_old] through unchanged. *)
Theorem transform_doc_old_passes_its_schema self names doc new_doc :
  field_list self = FieldsTuple names →
  (∀ field, field ∈ glossary_fields → field ∈ names) →
  dynamic_field_list self = ["*_target_term"] →
  transform_doc_old doc = Ok new_doc →
  clean_doc self new_doc = Ok new_doc.
Proof.
  intros Hf Hnames Hdyn Hdoc. apply (clean_doc_all_kept _ names); [done|].
  intros key Hkey. rewrite Hdyn. unfold key_kept.
  case_bool_decide as Hin; [done|].
  destruct (transform_doc_old_shape doc new_doc Hdoc) as [_ Hkeys].
  destruct (Hkeys key Hkey) as [Hg|[lang ->]]; [by destruct Hin; auto|].
  pose proof (all_word_lower_sub false (lang +:+ "_target_term")) as Hw.
  fold (target_term_name lang) in Hw.
  destruct (target_term_name_suffix lang) as [w Hname].
  destruct (dynamic_match_leading "_target_term" (target_term_name lang))
    as (m & Hm & Hiff); [done..|].
  unfold any_dynamic. cbn [for_in].
  change ("*" +:+ "_target_term") with "*_target_term" in Hm.
  rewrite Hm. cbn. f_equal. rewrite orb_false_r. apply Hiff.
  exists w, "". rewrite string_app_nil_r. split_and!; [done| |done].
  rewrite Hname, all_word_app in Hw.
  by apply andb_true_iff in Hw as [-> _].
Qed.
End old_facts.

(** ** The further properties at work *)

Section more_examples.
Local Existing Instance py_re.

(** Turns a hypothesis [doc !! key = Some v] on a closed document into
    one case for each of its keys. *)
Ltac each_key Hv :=
  apply elem_of_map_to_list in Hv;
  match type of Hv with
  | _ ∈ ?l => let l' := eval vm_compute in l in change l with l' in Hv
  end;
  repeat (apply elem_of_cons in Hv as [[= -> ->]|Hv]);
  [..|by apply elem_of_nil in Hv].

Lemma clean_doc_keeps_exactly_witness :
  (({[ "_id" := PStr "x1"; "id" := PStr "x1"; "cs_name" := PStr "Acme" ]}
      : dict) !! "cs_name" = Some (PStr "Acme") ↔
   acme_flat !! "cs_name" = Some (PStr "Acme")
   ∧ key_kept ["_id"; "id"]
       (dynamic_field_list (manager_with_schema ["_id"; "id"] ["cs_*"]))
       "cs_name" = Ok true)
  ∧ (({[ "_id" := PStr "x1"; "id" := PStr "x1"; "cs_name" := PStr "Acme" ]}
        : dict) !! "phone" = Some (PStr "555") ↔
     acme_flat !! "phone" = Some (PStr "555")
     ∧ key_kept ["_id"; "id"]
         (dynamic_field_list (manager_with_schema ["_id"; "id"] ["cs_*"]))
         "phone" = Ok true).
Proof.
  split;
    apply (clean_doc_keeps_exactly
             (manager_with_schema ["_id"; "id"] ["cs_*"]) ["_id"; "id"]
             acme_flat); vm_compute; reflexivity.
Defined.

Lemma clean_doc_returns_subdocument_witness :
  ({[ "_id" := PStr "x1"; "id" := PStr "x1"; "cs_name" := PStr "Acme" ]}
     : dict) ⊆ acme_flat.
Proof.
  apply (clean_doc_returns_subdocument
           (manager_with_schema ["_id"; "id"] ["cs_*"]) acme_flat).
  vm_compute. reflexivity.
Defined.

Lemma clean_doc_declared_keys_unchanged_witness :
  clean_doc (manager_with_schema ["_id"; "id"; "cs_name"; "phone"] ["*"])
    acme_flat
  = Ok acme_flat.
Proof.
  apply (clean_doc_declared_keys_unchanged _
           ["_id"; "id"; "cs_name"; "phone"]); [reflexivity|].
  intros key [v Hv]. each_key Hv; apply (bool_decide_unpack _); by vm_compute.
Defined.

Lemma clean_doc_empty_pattern_name_witness :
  clean_doc (manager_with_schema ["id"] [""; "cs_*"]) acme_flat
  = Raise IndexError.
Proof.
  apply (clean_doc_empty_pattern_name _ ["id"] ["cs_*"]);
    [reflexivity..|].
  exists "_id". split; [by exists (PStr "x1")|].
  apply (bool_decide_unpack _). by vm_compute.
Defined.

Lemma build_fields_activates_filter_witness :
  let self' := self (build_fields (world_with schema_server 1000 [])).2 in
  ∃ names,
    field_list self' = FieldsTuple names
    ∧ ∀ doc r, clean_doc self' doc = Ok r →
        ∀ key value,
          r !! key = Some value →
          doc !! key = Some value
          ∧ key_kept names (dynamic_field_list self') key = Ok true.
Proof.
  apply (build_fields_activates_filter (world_with schema_server 1000 [])).
  reflexivity.
Defined.

Lemma build_fields_failures_witness :
  ((build_fields (world_with unreachable_server 1000 [])).1
   = Raise ConnectionError
   ∧ self (build_fields (world_with unreachable_server 1000 [])).2
     = self (world_with unreachable_server 1000 []))
  ∧ ((build_fields (world_with list_schema_server 1000 [])).1
     = Raise AttributeError
     ∧ self (build_fields (world_with list_schema_server 1000 [])).2
       = self (world_with list_schema_server 1000 []))
  ∧ ((build_fields (world_with odd_schema_server 1000 [])).1
     = Raise AttributeError
     ∧ field_list (self (build_fields (world_with odd_schema_server 1000 [])).2)
       = FieldsTuple ["id"]
     ∧ dynamic_field_list
         (self (build_fields (world_with odd_schema_server 1000 [])).2)
       = dynamic_field_list (self (world_with odd_schema_server 1000 []))).
Proof.
  split; [|split].
  - apply (proj1 (build_fields_failures
                    (world_with unreachable_server 1000 []))
             ConnectionError unreachable_server).
    reflexivity.
  - apply (proj1 (proj2 (build_fields_failures
                           (world_with list_schema_server 1000 [])))
             (PList []) AttributeError list_schema_server); reflexivity.
  - apply (proj2 (proj2 (build_fields_failures
                           (world_with odd_schema_server 1000 [])))
             (PDict {[ "schema" :=
                PDict {[ "fields" := PDict {[ "id" := PDict ∅ ]};
                         "dynamicFields" := PList [] ]} ]})
             ["id"] AttributeError odd_schema_server); reflexivity.
Defined.

Lemma flush_of_empty_buffer_does_nothing_witness :
  sendDocsBulk (world_with bare_server 1000 [])
  = (Ok (), world_with bare_server 1000 [])
  ∧ commit (world_with bare_server 1000 [])
    = (Ok (), world_with bare_server 1000 []).
Proof.
  apply (flush_of_empty_buffer_does_nothing (world_with bare_server 1000 [])).
  reflexivity.
Defined.

Lemma upsert_failure_buffers_nothing_witness :
  upsert {[ "_id" := PStr "x1" ]} (world_with bare_server 1000 [acme_flat])
  = (Raise (KeyError "value"), world_with bare_server 1000 [acme_flat])
  ∧ upsert ∅ (world_with bare_server 1000 [acme_flat])
    = (Raise (KeyError "_id"), world_with bare_server 1000 [acme_flat]).
Proof.
  split.
  - apply (proj1 (upsert_failure_buffers_nothing
                    (world_with bare_server 1000 [acme_flat])
                    {[ "_id" := PStr "x1" ]})).
    reflexivity.
  - apply (proj2 (upsert_failure_buffers_nothing
                    (world_with bare_server 1000 [acme_flat]) ∅)).
    reflexivity.
Defined.

Lemma accepted_upserts_lose_nothing_witness :
  let w := {| self := manager_with 2 []; solr := obliging; trace := [] |} in
  let w' := run_calls ((call_upsert <$> [acme; acme; acme])
                       ++ [call_commit]) w in
  sent (trace w')
  = sent (trace w) ++ docs (self w) ++ [acme_flat; acme_flat; acme_flat]
  ∧ docs (self w') = [].
Proof.
  apply (accepted_upserts_lose_nothing
           {| self := manager_with 2 []; solr := obliging; trace := [] |}
           [acme; acme; acme] [acme_flat; acme_flat; acme_flat]).
  - intros ds s. reflexivity.
  - repeat constructor.
Defined.

Lemma accepted_upserts_keep_buffer_below_threshold_witness :
  let w := {| self := manager_with 2 []; solr := obliging; trace := [] |} in
  Z.of_nat (length (docs (self (run_calls
                                  (call_upsert <$> [acme; acme; acme]) w))))
  < commit_bulk_max (self w).
Proof.
  apply (accepted_upserts_keep_buffer_below_threshold
           {| self := manager_with 2 []; solr := obliging; trace := [] |}
           [acme; acme; acme] [acme_flat; acme_flat; acme_flat]).
  - intros ds s. reflexivity.
  - repeat constructor.
  - reflexivity.
  - reflexivity.
Defined.

Lemma rejected_upserts_resend_growing_buffer_witness :
  let w := {| self := manager_with 1 []; solr := refusing; trace := [] |} in
  let w' := run_calls (call_upsert <$> [acme; acme]) w in
  (∀ n d, [acme; acme] !! n = Some d →
     (upsert d (run_calls (call_upsert <$> take n [acme; acme]) w)).1
     = Ok ())
  ∧ docs (self w') = docs (self w) ++ [acme_flat; acme_flat]
  ∧ batches (trace w')
    = batches (trace w)
      ++ ((λ n, docs (self w) ++ take n [acme_flat; acme_flat])
            <$> seq 1 (length [acme_flat; acme_flat])).
Proof.
  apply (rejected_upserts_resend_growing_buffer
           {| self := manager_with 1 []; solr := refusing; trace := [] |}
           [acme; acme] [acme_flat; acme_flat]).
  - intros ds s. exists SolrError. split; reflexivity.
  - repeat constructor.
  - cbn. lia.
Defined.

Lemma remove_does_not_cancel_buffered_upsert_witness :
  let w := world_with bare_server 1000 [] in
  ∃ w', (upsert acme;; remove acme;; commit) w = (Ok (), w')
    ∧ trace w' = trace w ++
        [SolrDeleteId (PStr "x1") true;
         SolrAdd (docs (self w) ++ [acme_flat]) true;
         LoggingInfo (BulkAdd (commit_bulk_num (self w) + 1))]
    ∧ docs (self w') = [].
Proof.
  apply (remove_does_not_cancel_buffered_upsert
           (world_with bare_server 1000 []) acme acme_flat (PStr "x1")
           bare_server bare_server).
  - reflexivity.
  - reflexivity.
  - reflexivity.
  - reflexivity.
  - reflexivity.
Defined.

Lemma remove_bypasses_buffer_witness :
  remove ∅ (world_with bare_server 1000 [acme_flat])
  = (Raise (KeyError (unique_key
                        (self (world_with bare_server 1000 [acme_flat])))),
     world_with bare_server 1000 [acme_flat])
  ∧ (self (remove acme (world_with bare_server 1000 [acme_flat])).2
     = self (world_with bare_server 1000 [acme_flat])
     ∧ trace (remove acme (world_with bare_server 1000 [acme_flat])).2
       = trace (world_with bare_server 1000 [acme_flat])
         ++ [SolrDeleteId (PStr "x1") true]
     ∧ (remove acme (world_with bare_server 1000 [acme_flat])).1
       = (solr_delete_id (PStr "x1") true
            (solr (world_with bare_server 1000 [acme_flat]))).1).
Proof.
  split.
  - apply (proj1 (remove_bypasses_buffer
                    (world_with bare_server 1000 [acme_flat]) ∅)).
    reflexivity.
  - apply (proj2 (remove_bypasses_buffer
                    (world_with bare_server 1000 [acme_flat]) acme)
             (PStr "x1")).
    reflexivity.
Defined.

Lemma auto_commit_never_flushes_and_stops_witness :
  let w := {| self := manager_with_schema [] []; solr := obliging;
              trace := [] |} in
  let down := {| self := manager_with_schema [] []; solr := unreachable;
                 trace := [] |} in
  run_auto_commit w
  = (Ok (),
     {| self := self w; solr := obliging;
        trace := trace w ++ SolrCommit ::
          (if auto_commit (self w) then [TimerStart 1] else []) |})
  ∧ run_auto_commit down
    = (Raise ConnectionError,
       {| self := self down; solr := unreachable;
          trace := trace down ++ [SolrCommit] |})
  ∧ trace ((stop;; run_auto_commit) w).2 = trace w ++ [SolrCommit].
Proof.
  cbv zeta. split_and!.
  - apply (proj1 (proj2 (auto_commit_never_flushes_and_stops
             {| self := manager_with_schema [] []; solr := obliging;
                trace := [] |})) obliging).
    reflexivity.
  - apply (proj1 (proj2 (proj2 (auto_commit_never_flushes_and_stops
             {| self := manager_with_schema [] []; solr := unreachable;
                trace := [] |}))) ConnectionError unreachable).
    reflexivity.
  - apply (proj2 (proj2 (proj2 (auto_commit_never_flushes_and_stops
             {| self := manager_with_schema [] []; solr := obliging;
                trace := [] |}))) obliging).
    reflexivity.
Defined.

Lemma transform_doc_writes_word_keys_witness :
  all_word "cs_name" = true.
Proof.
  apply (transform_doc_writes_word_keys acme acme_flat eq_refl "cs_name").
  by exists (PStr "Acme").
Defined.

Lemma transform_doc_reads_id_and_data_only_witness :
  transform_doc acme = transform_doc (<["_ts" := PInt 5]> acme).
Proof.
  apply (transform_doc_reads_id_and_data_only acme
           (<["_ts" := PInt 5]> acme)); reflexivity.
Defined.

Lemma transform_doc_wrong_types_witness :
  transform_doc {[ "_id" := PStr "x1"; "value" := PStr "Acme" ]}
  = Raise TypeError
  ∧ transform_doc
      {[ "_id" := PStr "x1";
         "value" := PDict {[ "data" := PList [] ]} ]}
    = Raise AttributeError
  ∧ transform_doc
      {[ "_id" := PStr "x1";
         "value" := PDict {[ "data" :=
                      PDict {[ "address" := PStr "Main St" ]} ]} ]}
    = Raise AttributeError.
Proof.
  split; [|split].
  - refine (proj1 (transform_doc_wrong_types _ _) (PStr "Acme") _ _);
      [by exists (PStr "x1")|reflexivity|discriminate].
  - refine (proj1 (proj2 (transform_doc_wrong_types _ _))
              {[ "data" := PList [] ]} (PList []) _ _ _);
      [by exists (PStr "x1")|reflexivity..|discriminate].
  - refine (proj2 (proj2 (transform_doc_wrong_types _ _))
              {[ "data" := PDict {[ "address" := PStr "Main St" ]} ]}
              {[ "address" := PStr "Main St" ]} (PStr "Main St") _ _ _ _);
      [by exists (PStr "x1")|reflexivity..|discriminate].
Defined.

Lemma transform_doc_old_required_and_verbatim_witness :
  transform_doc_old ∅ = Raise (KeyError "_id")
  ∧ transform_doc_old {[ "_id" := PStr "g1" ]}
    = Raise (KeyError "GlossaryId")
  ∧ transform_doc_old {[ "_id" := PStr "g1"; "GlossaryId" := PInt 7 ]}
    = Raise (KeyError "SourceTerm")
  ∧ transform_doc_old
      {[ "_id" := PStr "g1"; "GlossaryId" := PInt 7;
         "SourceTerm" := PStr "file" ]}
    = Raise (KeyError "TargetTerms")
  ∧ ((∀ field, field ∈ glossary_fields →
        glossary_flat !! field = glossary_entry !! field)
     ∧ ∀ key, is_Some (glossary_flat !! key) →
         key ∈ glossary_fields
         ∨ ∃ lang_code, key = target_term_name lang_code).
Proof.
  split; [|split; [|split; [|split]]].
  - apply (proj1 (transform_doc_old_required_and_verbatim ∅)).
    reflexivity.
  - apply (proj1 (proj2 (transform_doc_old_required_and_verbatim
                           {[ "_id" := PStr "g1" ]})));
      [by exists (PStr "g1")|reflexivity].
  - apply (proj1 (proj2 (proj2 (transform_doc_old_required_and_verbatim
             {[ "_id" := PStr "g1"; "GlossaryId" := PInt 7 ]}))));
      [by exists (PStr "g1")|by exists (PInt 7)|reflexivity].
  - apply (proj1 (proj2 (proj2 (proj2
             (transform_doc_old_required_and_verbatim
                {[ "_id" := PStr "g1"; "GlossaryId" := PInt 7;
                   "SourceTerm" := PStr "file" ]})))));
      [by exists (PStr "g1")|by exists (PInt 7)|by exists (PStr "file")
      |reflexivity].
  - apply (proj2 (proj2 (proj2 (proj2
             (transform_doc_old_required_and_verbatim glossary_entry))))
             glossary_flat).
    vm_compute. reflexivity.
Defined.

Lemma transform_doc_old_last_translation_wins_witness :
  glossary_flat !! target_term_name "en_US" = Some (PStr "document").
Proof.
  apply (transform_doc_old_last_translation_wins glossary_entry
           glossary_flat
           [PDict {[ "LangCode" := PStr "en-US";
                     "Terms" := PList [PStr "file"] ]}]
           (PDict {[ "LangCode" := PStr "en_US";
                     "Terms" := PList [PStr "document"] ]})
           "en_US" (PList [PStr "document"]) (PStr "document"));
    vm_compute; reflexivity.
Defined.

Lemma transform_doc_old_passes_its_schema_witness :
  clean_doc (manager_with_schema glossary_fields ["*_target_term"])
    glossary_flat
  = Ok glossary_flat.
Proof.
  apply (transform_doc_old_passes_its_schema _ glossary_fields
           glossary_entry glossary_flat).
  - reflexivity.
  - intros field Hfield. exact Hfield.
  - reflexivity.
  - vm_compute. reflexivity.
Defined.
End more_examples.
